(** * lockbox-datastore: the item store and its change detector

    A shallow embedding of [lib/datastore.js] (the vault state machine, its
    data operations and [determineItemChanges]) together with the parts of
    the repository the data store calls into. *)

From Stdlib Require Import ZArith Ascii.
From stdpp Require Import gmap strings list fin_maps.

Open Scope string_scope.
Open Scope list_scope.

(** ** Items

    A JavaScript item object.  Every property is optional: [None] is a
    property the object does not have (reading it gives [undefined]).
    [entry] is an object used as a map from field name to string. *)

Record HistoryEntry := mkHistoryEntry {
  h_created : string;
  h_patch : gmap string (option string)
}.

Record Item := mkItem {
  id : option string;
  title : option string;
  origins : option (list string);
  tags : option (list string);
  entry : option (gmap string string);
  disabled : option bool;
  created : option string;
  modified : option string;
  last_used : option string;
  history : option (list HistoryEntry);
  extra : gset string
}.

(** [item.id], for use where [id] names something else. *)
Definition itemId (item : Item) : option string := id item.

(** The object literal [{}]. *)
Definition emptyObject : Item :=
  mkItem None None None None None None None None None None ∅.

(** [a || b] on a property that is either missing or an object/array. *)
Definition orElse {A} (a : option A) (b : A) : A := default b a.

(** [Object.assign({}, prev, next)]: own properties of [next] win. *)
Definition Object_assign (prev next : Item) : Item :=
  let pick {A} (f : Item -> option A) : option A :=
    match f next with Some v => Some v | None => f prev end in
  {| id := pick id; title := pick title; origins := pick origins;
     tags := pick tags; entry := pick entry; disabled := pick disabled;
     created := pick created; modified := pick modified;
     last_used := pick last_used; history := pick history;
     extra := extra prev ∪ extra next |}.

(** [item.id] used as a property name or primary key: a missing id reads
    as the text of [undefined]. *)
Definition keyOf (item : Item) : string := orElse (id item) "undefined".

(** [Array.prototype.indexOf]: position of the first occurrence, or -1. *)
Fixpoint indexOf (l : list string) (d : string) : Z :=
  match l with
  | [] => (-1)%Z
  | x :: l' =>
      if bool_decide (x = d) then 0%Z
      else let i := indexOf l' d in
           if (i =? -1)%Z then (-1)%Z else (i + 1)%Z
  end.

Module DataStoreChanges.

Record Changes := mkChanges { fields : string }.

(** The [fields] array of [determineItemChanges] just before it is joined. *)
Definition changedFields (prev next : option Item) : list string :=
  let prev := orElse prev emptyObject in
  let next := orElse next emptyObject in
  let next := Object_assign prev next in
  let fields := [] in
  (* check title *)
  let fields :=
    if bool_decide (title prev ≠ title next) then fields ++ ["title"]
    else fields in
  (* check origins *)
  let prevOrigins := orElse (origins prev) [] in
  let nextOrigins := orElse (origins next) [] in
  let fields :=
    if negb (length prevOrigins =? length nextOrigins)%nat
       || negb (forallb (fun d => negb (indexOf nextOrigins d =? -1)%Z)
                        prevOrigins)
    then fields ++ ["origins"]
    else fields in
  (* check entries.(username,password,notes) *)
  let prevEntry := orElse (entry prev) ∅ in
  let nextEntry := orElse (entry next) ∅ in
  foldl (fun fields f =>
           if bool_decide (prevEntry !! f ≠ nextEntry !! f)
           then fields ++ ["entry." +:+ f]
           else fields)
        fields ["username"; "password"; "notes"].

Definition determineItemChanges (prev next : option Item) : Changes :=
  {| fields := String.concat "," (changedFields prev next) |}.

(** The change detector as the specification words it: the compared
    fields in their enumeration order, [origins] compared as sets and
    the other fields as strings. *)
Definition compared_fields : list string :=
  ["title"; "origins"; "entry.username"; "entry.password"; "entry.notes"].

Definition entry_field (it : Item) (f : string) : option string :=
  orElse (entry it) ∅ !! f.

Definition origins_set (it : Item) : gset string :=
  list_to_set (orElse (origins it) []).

Definition field_differs (prev next : Item) (f : string) : bool :=
  if bool_decide (f = "title") then bool_decide (title prev ≠ title next)
  else if bool_decide (f = "origins")
       then bool_decide (origins_set prev ≠ origins_set next)
  else if bool_decide (f = "entry.username")
       then bool_decide (entry_field prev "username" ≠ entry_field next "username")
  else if bool_decide (f = "entry.password")
       then bool_decide (entry_field prev "password" ≠ entry_field next "password")
  else if bool_decide (f = "entry.notes")
       then bool_decide (entry_field prev "notes" ≠ entry_field next "notes")
  else false.

Definition diff_spec (prev next : Item) : string :=
  String.concat "," (List.filter (field_differs prev next) compared_fields).

(** Items of the data model keep [origins] free of duplicates. *)
Definition origins_nodup (it : Item) : Prop := NoDup (orElse (origins it) []).

End DataStoreChanges.

(** ** Failures

    [DataStoreError] carries one of the reasons of [lib/util/errors.js];
    [datastore.js] also throws plain [TypeError] and [Error] values, which
    carry a message and no reason. *)

Inductive Reason :=
  | NOT_INITIALIZED | INITIALIZED | LOCKED
  | MISSING_APP_KEY | INVALID_ITEM | MISSING_ITEM
  | INVALID_MASTER_KEY | NOT_ENCRYPTED | UNKNOWN_KEY
  | AUTH_TAG_MISMATCH | CORRUPT.

Inductive Exception :=
  | DataStoreError (message : string) (reason : Reason)
  | TypeError (message : string)
  | Error (message : string)
  | ConstraintError (message : string).

#[global] Instance Reason_eq_dec : EqDecision Reason.
Proof. solve_decision. Defined.
#[global] Instance Exception_eq_dec : EqDecision Exception.
Proof. solve_decision. Defined.

Inductive Result (A : Type) :=
  | Return (a : A)
  | Throw (e : Exception).
Arguments Return {A} a.
Arguments Throw {A} e.

(** What an operation draws from outside during one call: the clock and
    the random values it asks for. *)
Record Env := mkEnv {
  env_now : string;
  env_uuid : string;
  env_salt : string;
  env_key : N;
  env_iv_item : N;
  env_iv_keys : N
}.

(** ** JavaScript strings and their UTF-8 octets

    Most strings of the data store are only stored and compared.  The
    master password is the one string the code encodes: [passwordToKey]
    hands it to [base64url.encode(pwd, "utf8")].  A password is therefore
    held as JavaScript holds it, the sequence of its UTF-16 code units
    (numbers below 65536), and [utf8] is the encoding the platform
    computes for such a sequence. *)

Module JsString.

Definition t : Type := list N.

(** The string of a text whose characters are all below U+0100. *)
Definition of_string (s : string) : t :=
  map N_of_ascii (String.list_ascii_of_string s).

(** Lead (high) and trail (low) surrogates. *)
Definition isHigh (u : N) : bool := ((0xD800 <=? u) && (u <? 0xDC00))%N.
Definition isLow (u : N) : bool := ((0xDC00 <=? u) && (u <? 0xE000))%N.

(** The code point a surrogate pair stands for. *)
Definition codePoint (high low : N) : N :=
  (0x10000 + (high - 0xD800) * 0x400 + (low - 0xDC00))%N.

(** The one to four octets of a code point. *)
Definition encodeCodePoint (cp : N) : list N :=
  (if cp <? 0x80 then [cp]
   else if cp <? 0x800 then [0xC0 + cp / 0x40; 0x80 + cp mod 0x40]
   else if cp <? 0x10000 then
     [0xE0 + cp / 0x1000; 0x80 + (cp / 0x40) mod 0x40; 0x80 + cp mod 0x40]
   else
     [0xF0 + cp / 0x40000; 0x80 + (cp / 0x1000) mod 0x40;
      0x80 + (cp / 0x40) mod 0x40; 0x80 + cp mod 0x40])%N.

(** The octets of U+FFFD, which stand in for a surrogate without its
    partner. *)
Definition REPLACEMENT : list N := [0xEF; 0xBF; 0xBD]%N.

(** The octets of a string in the [utf8] encoding: a lead surrogate and
    the trail surrogate that follows it make one code point, any other
    surrogate is replaced, every other code unit is its own code point. *)
Fixpoint utf8 (s : t) : list N :=
  match s with
  | [] => []
  | u :: rest =>
      if isHigh u then
        match rest with
        | low :: rest' =>
            if isLow low then encodeCodePoint (codePoint u low) ++ utf8 rest'
            else REPLACEMENT ++ utf8 rest
        | [] => REPLACEMENT
        end
      else if isLow u then REPLACEMENT ++ utf8 rest
      else encodeCodePoint u ++ utf8 rest
  end.

(** A string is well formed when it is made of code units and every
    surrogate in it is part of a pair. *)
Fixpoint wellFormed (s : t) : bool :=
  match s with
  | [] => true
  | u :: rest =>
      if isHigh u then
        match rest with
        | low :: rest' => isLow low && wellFormed rest'
        | [] => false
        end
      else negb (isLow u) && (u <? 0x10000)%N && wellFormed rest
  end.

(** The code units of a code point: itself, or its surrogate pair. *)
Definition unitsOf (cp : N) : t :=
  (if cp <? 0x10000 then [cp]
   else [0xD800 + (cp - 0x10000) / 0x400; 0xDC00 + (cp - 0x10000) mod 0x400])%N.

End JsString.

(** ** Master keys *)

Module JWK.
(** An octet-sequence JSON Web Key; [k] holds the octets themselves
    (their base64url text is a one-to-one rendering of them). *)
Record t := mk { kty : string; k : list N; use : string }.

#[global] Instance eq_dec : EqDecision t.
Proof. solve_decision. Defined.
End JWK.

(** BASE64URL(SHA-256("project lockbox")) *)
Definition PASSWORD_PREFIX : JsString.t :=
  JsString.of_string "-GV3ItzyNxfBGp3ZjtqVGswWWlT7tIMZjeXanHqhxm0".

(** [pwd || ""] on an optional string: a missing and an empty password
    are both the empty string. *)
Definition passwordToKey (pwd : option JsString.t) : JWK.t :=
  let pwd := PASSWORD_PREFIX ++ orElse pwd [] in
  {| JWK.kty := "oct"; JWK.k := JsString.utf8 pwd; JWK.use := "enc" |}.
Arguments passwordToKey : simpl never.

(** ** The item keyring

    [lib/itemkeystore.js] is not among the available sources; its tests
    ([test/itemkeystore-test.js]) and the specification are.  Everything
    in this module is modelled from sections 4.1 to 4.3 of the
    specification, with the defaults and messages the tests check. *)

Module ItemKeyStore.

(** Modelled from the spec: a per-item content key (section 3, ItemKey),
    256 random bits bound to the item id. *)
Record ItemKey := mkItemKey {
  kty : string;
  kid : string;
  alg : string;
  material : N
}.

#[global] Instance ItemKey_eq_dec : EqDecision ItemKey.
Proof. solve_decision. Defined.

(** Modelled from the spec: what a sealed container held before sealing,
    the JSON text of a value or bytes that are not JSON (the structural
    decode failure of section 4.1). *)
Inductive Plain (A : Type) :=
  | Json (a : A)
  | NotJson (raw : string).
Arguments Json {A} a.
Arguments NotJson {A} raw.

(** Modelled from the spec: the compact container of a wrapped keyring
    (section 4.1), built by lib/itemkeystore.js.  The container carries
    salt and iteration count as authenticated header, the nonce, and the
    sealed keyring.  The authenticated encryption is ideal: a container
    opens under the master key that sealed it and under no other. *)
Record Compact := mkCompact {
  p2s : string;
  p2c : N;
  iv : N;
  sealed_by : JWK.t;
  sealed : Plain (gmap string ItemKey)
}.

(** Modelled from the spec: the [encrypted] string, a compact container
    or some other text (the malformed container of section 4.1). *)
Inductive Blob :=
  | Container (c : Compact)
  | Text (s : string).

(** JavaScript truthiness of the [encrypted] string. *)
Definition truthy (b : option Blob) : bool :=
  match b with
  | Some (Container _) => true
  | Some (Text s) => negb (bool_decide (s = ""))
  | None => false
  end.

(** Modelled from the spec: [wrap] of section 4.1. *)
Definition wrap (master : JWK.t) (salt : string) (iterations : N)
    (nonce : N) (keyring : gmap string ItemKey) : Blob :=
  Container {| p2s := salt; p2c := iterations; iv := nonce;
               sealed_by := master; sealed := Json keyring |}.

(** Modelled from the spec: [unwrap] of section 4.1; it fails with
    [INVALID_MASTER_KEY] on a tag mismatch or a malformed container and
    with [CORRUPT] when the opened text does not decode. *)
Definition unwrap (master : JWK.t) (blob : Blob)
    : Result (gmap string ItemKey) :=
  match blob with
  | Text _ => Throw (DataStoreError "invalid master key" INVALID_MASTER_KEY)
  | Container c =>
      if bool_decide (sealed_by c = master) then
        match sealed c with
        | Json keyring => Return keyring
        | NotJson _ => Throw (DataStoreError "corrupt keyring" CORRUPT)
        end
      else Throw (DataStoreError "invalid master key" INVALID_MASTER_KEY)
  end.

(** Modelled from the spec: the ciphertext of one item (section 4.3),
    sealed under the item's key with the item id as associated data. *)
Record Ciphertext := mkCiphertext {
  ct_key : ItemKey;
  ct_aad : string;
  ct_iv : N;
  ct_plain : Plain Item
}.

(** Modelled from the spec: the keyring object of section 4.2, the class
    of lib/itemkeystore.js. *)
Record t := mk {
  group : string;
  salt : string;
  iterations : N;
  encrypted : option Blob;
  masterKey : option JWK.t;
  keys : gmap string ItemKey
}.

(** Modelled from the spec: the configuration the constructor takes. *)
Record Config := mkConfig {
  cfg_group : option string;
  cfg_salt : option string;
  cfg_iterations : option N;
  cfg_encrypted : option Blob;
  cfg_masterKey : option JWK.t
}.

Definition noConfig : Config := mkConfig None None None None None.

Definition DEFAULT_ITERATIONS : N := 8192%N.

(** Modelled from the spec: [new ItemKeyStore(cfg)], with the empty
    group, 8192 iterations and a random salt unless given, and no keys. *)
Definition new (env : Env) (cfg : Config) : t :=
  {| group := orElse (cfg_group cfg) "";
     salt := orElse (cfg_salt cfg) (env_salt env);
     iterations := orElse (cfg_iterations cfg) DEFAULT_ITERATIONS;
     encrypted := cfg_encrypted cfg;
     masterKey := cfg_masterKey cfg;
     keys := ∅ |}.

(** Modelled from the spec: the persisted shape
    [{ group, salt, iterations, encrypted }] and [toJSON]. *)
Record Persisted := mkPersisted {
  ps_group : string;
  ps_salt : string;
  ps_iterations : N;
  ps_encrypted : option Blob
}.

Definition toJSON (self : t) : Persisted :=
  {| ps_group := group self; ps_salt := salt self;
     ps_iterations := iterations self; ps_encrypted := encrypted self |}.

Definition fromJSON (p : Persisted) : Config :=
  {| cfg_group := Some (ps_group p); cfg_salt := Some (ps_salt p);
     cfg_iterations := Some (ps_iterations p);
     cfg_encrypted := ps_encrypted p; cfg_masterKey := None |}.

(** Modelled from the spec: [size], [has(id)] and [get(id)]. *)
Definition size (self : t) : nat := base.size (keys self).
Definition has (self : t) (id : string) : bool :=
  bool_decide (is_Some (keys self !! id)).
Definition get (self : t) (id : string) : option ItemKey := keys self !! id.

(** Modelled from the spec: [add(id)], the key already held for [id] or
    a fresh random one. *)
Definition add (env : Env) (id : string) (self : t) : ItemKey * t :=
  match keys self !! id with
  | Some key => (key, self)
  | None =>
      let key := {| kty := "oct"; kid := id; alg := "A256GCM";
                    material := env_key env |} in
      (key, {| group := group self; salt := salt self;
               iterations := iterations self; encrypted := encrypted self;
               masterKey := masterKey self;
               keys := <[id := key]> (keys self) |})
  end.

(** Modelled from the spec: [delete(id)]. *)
Definition delete (id : string) (self : t) : t :=
  {| group := group self; salt := salt self;
     iterations := iterations self; encrypted := encrypted self;
     masterKey := masterKey self;
     keys := base.delete id (keys self) |}.

(** Modelled from the spec: [load(master?)]; it needs the [encrypted]
    blob and a master key, the given one or the one already held. *)
Definition load (master : option JWK.t) (self : t) : Result unit * t :=
  match encrypted self with
  | None => (Throw (DataStoreError "not encrypted" NOT_ENCRYPTED), self)
  | Some blob =>
      match (match master with Some m => Some m | None => masterKey self end) with
      | None =>
          (Throw (DataStoreError "invalid master key" INVALID_MASTER_KEY), self)
      | Some m =>
          match unwrap m blob with
          | Throw e => (Throw e, self)
          | Return keyring =>
              (Return tt,
               {| group := group self; salt := salt self;
                  iterations := iterations self; encrypted := encrypted self;
                  masterKey := Some m; keys := keyring |})
          end
      end
  end.

(** Modelled from the spec: [save()], which re-wraps the current keys
    under the held master key. *)
Definition save (env : Env) (self : t) : Result unit * t :=
  match masterKey self with
  | None =>
      (Throw (DataStoreError "invalid master key" INVALID_MASTER_KEY), self)
  | Some m =>
      (Return tt,
       {| group := group self; salt := salt self;
          iterations := iterations self;
          encrypted := Some (wrap m (salt self) (iterations self)
                                  (env_iv_keys env) (keys self));
          masterKey := masterKey self; keys := keys self |})
  end.

(** Modelled from the spec: [clear(hard?)], which forgets the keys and
    the master key; a hard clear also forgets the [encrypted] blob. *)
Definition clear (hard : bool) (self : t) : t :=
  {| group := group self; salt := salt self;
     iterations := iterations self;
     encrypted := if hard then None else encrypted self;
     masterKey := None; keys := ∅ |}.

(** Modelled from the spec: [encrypt(item)], which seals the item's JSON
    under the key for [item.id], adding the key when there is none. *)
Definition encrypt (env : Env) (item : Item) (self : t) : Ciphertext * t :=
  let id := keyOf item in
  let '(key, self) := add env id self in
  ({| ct_key := key; ct_aad := id; ct_iv := env_iv_item env;
      ct_plain := Json item |}, self).

(** Modelled from the spec: [decrypt(id, ciphertext)] of section 4.3. *)
Definition decrypt (id : string) (c : Ciphertext) (self : t) : Result Item :=
  match keys self !! id with
  | None => Throw (DataStoreError "unknown item key" UNKNOWN_KEY)
  | Some key =>
      if bool_decide (ct_key c = key) && bool_decide (ct_aad c = id) then
        match ct_plain c with
        | Json item => Return item
        | NotJson _ => Throw (DataStoreError "corrupt item" CORRUPT)
        end
      else Throw (DataStoreError "decryption failed" AUTH_TAG_MISMATCH)
  end.

End ItemKeyStore.

(** ** Item preparation

    [lib/items.js] is not among the available sources; this module is
    modelled from section 4.4 of the specification. *)

Module Items.

(** Modelled from the spec: the history bound N and the known entry
    kinds. *)
Definition HISTORY_MAX : nat := 8.
Definition KNOWN_KINDS : list string := ["login"].

(** Modelled from the spec: a well-formed item id is the 36-character
    text of a 128-bit UUID, hexadecimal digits with hyphens after the
    8th, 12th, 16th and 20th digit. *)
Definition is_hex (c : Ascii.ascii) : bool :=
  bool_decide (c ∈ String.list_ascii_of_string "0123456789abcdefABCDEF").

Fixpoint uuid_shape (i : nat) (cs : list Ascii.ascii) : bool :=
  match cs with
  | [] => (i =? 36)%nat
  | c :: cs' =>
      (if bool_decide (i ∈ [8; 13; 18; 23]%nat)
       then bool_decide (c = "-"%char) else is_hex c)
      && uuid_shape (S i) cs'
  end.

Definition is_uuid (s : string) : bool :=
  uuid_shape 0 (String.list_ascii_of_string s).

Definition known_kind (e : gmap string string) : bool :=
  match e !! "kind" with
  | Some kd => bool_decide (kd ∈ KNOWN_KINDS)
  | None => false
  end.

(** Modelled from the spec: the validation of section 4.4.  An item
    needs an [entry] of a known kind, an id that is a UUID when it has
    one, and no top-level key outside the schema. *)
Definition valid (input : Item) : bool :=
  match entry input with Some e => known_kind e | None => false end
  && match id input with Some i => is_uuid i | None => true end
  && bool_decide (extra input = ∅).


(** Modelled from the spec: the JSON merge patch (the json-merge-patch
    package) between two flat objects, turning [from] into [to]. *)
Definition merge_patch (from to : gmap string string)
    : gmap string (option string) :=
  merge (fun a b =>
           match a, b with
           | _, Some vb => if bool_decide (a = Some vb) then None
                           else Some (Some vb)
           | Some _, None => Some None
           | None, None => None
           end) from to.

(** Modelled from the spec: [prepare(input, previous?)] of section 4.4,
    the function of lib/items.js. *)
Definition prepare (env : Env) (input : Item) (previous : option Item)
    : Result Item :=
  let invalid := Throw (DataStoreError "item changes invalid" INVALID_ITEM) in
  if negb (valid input) then invalid
  else
    let origins := remove_dups (orElse (origins input) []) in
    let tags := remove_dups (orElse (tags input) []) in
    match previous with
    | None =>
        Return {| id := Some (env_uuid env); title := title input;
                  origins := Some origins; tags := Some tags;
                  entry := entry input;
                  disabled := Some (orElse (disabled input) false);
                  created := Some (env_now env);
                  modified := Some (env_now env);
                  last_used := Some (env_now env);
                  history := Some []; extra := ∅ |}
    | Some previous =>
        if bool_decide (id input ≠ id previous) then invalid
        else
          let history := orElse (history previous) [] in
          let history :=
            if bool_decide (entry input ≠ entry previous)
            then {| h_created := env_now env;
                    h_patch := merge_patch (orElse (entry input) ∅)
                                           (orElse (entry previous) ∅) |}
                 :: history
            else history in
          Return {| id := id previous; title := title input;
                    origins := Some origins; tags := Some tags;
                    entry := entry input;
                    disabled := Some (orElse (disabled input) false);
                    created := created previous;
                    modified := Some (env_now env);
                    last_used := last_used previous;
                    history := Some (take HISTORY_MAX history);
                    extra := ∅ |}
    end.

End Items.

(** ** The local database

    [localdatabase.open(bucket)] opens, and on first use creates, the Dexie
    database of a bucket, with the tables [items] and [keystores].  A data
    store works on the one database of its bucket; [Dexie] is what that
    database holds. *)

Module localdatabase.

Definition DEFAULT_BUCKET : string := "lockbox".

(** A row of the [items] table. *)
Record ItemRecord := mkItemRecord {
  rec_id : string;
  active : string;
  rec_encrypted : ItemKeyStore.Ciphertext
}.

(** The Dexie database of one bucket: the [items] table by [id] and the
    [keystores] table by [group]. *)
Record Dexie := mkDexie {
  items : gmap string ItemRecord;
  keystores : gmap string ItemKeyStore.Persisted
}.

(** A database that [open] has just created. *)
Definition blank : Dexie := {| items := ∅; keystores := ∅ |}.

Definition items_put (r : ItemRecord) (db : Dexie) : Dexie :=
  {| items := <[rec_id r := r]> (items db); keystores := keystores db |}.

Definition items_delete (id : string) (db : Dexie) : Dexie :=
  {| items := delete id (items db); keystores := keystores db |}.

Definition keystores_put (k : ItemKeyStore.Persisted) (db : Dexie) : Dexie :=
  {| items := items db;
     keystores := <[ItemKeyStore.ps_group k := k]> (keystores db) |}.

End localdatabase.

(** ** The data store *)

Module DataStore.

Import localdatabase DataStoreChanges.

(** One call of the [recordMetric] sink. *)
Record Metric := mkMetric {
  method : string;
  metric_id : option string;
  metric_fields : option string
}.

(** The [recordMetric] function the embedder configures, as far as a
    data store can tell: given the calls it has received so far and a new
    call, it returns ([None]) or throws.  What it returns is dropped; an
    [async] function, as the default one is, never throws on the spot (a
    failure inside it rejects a promise nobody awaits). *)
Definition Sink : Type := list Metric -> Metric -> option Exception.

(** The default sink, [async () => {}]. *)
Definition noSink : Sink := fun _ _ => None.

(** The private state of a data store ([ldb] set once the database is
    open, the keyring, and the [recordMetric] function in [sink]) with
    the two things it acts on: the database of its bucket and the calls
    its sink has received. *)
Record t := mk {
  ldb : bool;
  keystore : ItemKeyStore.t;
  sink : Sink;
  database : Dexie;
  metrics : list Metric
}.

(** Operations run on the store, may change it, and return or throw. *)
Definition M (A : Type) : Type := t -> Result A * t.

Definition ret {A} (a : A) : M A := fun ds => (Return a, ds).
Definition throw {A} (e : Exception) : M A := fun ds => (Throw e, ds).
Definition bind {A B} (m : M A) (f : A -> M B) : M B :=
  fun ds =>
    match m ds with
    | (Return a, ds') => f a ds'
    | (Throw e, ds') => (Throw e, ds')
    end.
Definition gets {A} (f : t -> A) : M A := fun ds => (Return (f ds), ds).
Definition lift {A} (r : Result A) : M A := fun ds => (r, ds).

Notation "x <- c1 ;; c2" := (bind c1 (fun x => c2))
  (at level 100, c1 at next level, right associativity).

Definition set_keystore (ks : ItemKeyStore.t) : M unit :=
  fun ds => (Return tt, {| ldb := ldb ds; keystore := ks; sink := sink ds;
                           database := database ds; metrics := metrics ds |}).

Definition set_database (db : Dexie) : M unit :=
  fun ds => (Return tt, {| ldb := ldb ds; keystore := keystore ds;
                           sink := sink ds;
                           database := db; metrics := metrics ds |}).

(** A method of the keyring, run on [self.keystore]. *)
Definition onKeystore {A}
    (f : ItemKeyStore.t -> Result A * ItemKeyStore.t) : M A :=
  fun ds =>
    let '(r, ks) := f (keystore ds) in
    (r, {| ldb := ldb ds; keystore := ks; sink := sink ds;
           database := database ds; metrics := metrics ds |}).

(** [self.ldb.<table>]: reading a table off a handle that is not set
    throws. *)
Definition self_ldb : M Dexie :=
  fun ds =>
    if ldb ds then (Return (database ds), ds)
    else (Throw (TypeError "Cannot read properties of undefined"), ds).

(** [self.recordMetric(method, id, fields)], a plain call that is not
    awaited and not guarded: the sink receives the call, and an exception
    it throws on the spot is thrown on by the operation that called. *)
Definition recordMetric (method : string) (id : option string)
    (fields : option string) : M unit :=
  fun ds =>
    let call := mkMetric method id fields in
    let ds' := {| ldb := ldb ds; keystore := keystore ds; sink := sink ds;
                  database := database ds;
                  metrics := metrics ds ++ [call] |} in
    match sink ds (metrics ds) call with
    | Some e => (Throw e, ds')
    | None => (Return tt, ds')
    end.

(** [new DataStore(cfg)] on a bucket whose database holds [db], with
    [cfg.keys] and [cfg.recordMetric]; without the latter the sink is the
    default one. *)
Definition new (env : Env) (keys : option ItemKeyStore.Blob)
    (recordMetric : option Sink) (db : Dexie) : t :=
  {| ldb := false;
     keystore := ItemKeyStore.new env
                   (ItemKeyStore.mkConfig None None None keys None);
     sink := orElse recordMetric noSink;
     database := db; metrics := [] |}.

Definition initialized (ds : t) : bool :=
  ItemKeyStore.truthy (ItemKeyStore.encrypted (keystore ds)).

Definition locked (ds : t) : bool :=
  negb (bool_decide (is_Some (ItemKeyStore.masterKey (keystore ds)))).

Definition checkState : M unit :=
  fun ds =>
    if negb (initialized ds) then
      throw (DataStoreError "data is not initialized" NOT_INITIALIZED) ds
    else if locked ds then
      throw (DataStoreError "datastore is locked" LOCKED) ds
    else ret tt ds.

Definition prepare (env : Env) : M unit :=
  fun ds =>
    if ldb ds then ret tt ds
    else
      let stored :=
        match keystores (database ds) !! "" with
        | Some stored => stored
        | None => ItemKeyStore.toJSON (keystore ds)
        end in
      let revived := ItemKeyStore.new env (ItemKeyStore.fromJSON stored) in
      (Return tt, {| ldb := true; keystore := revived; sink := sink ds;
                     database := database ds; metrics := metrics ds |}).

(** The options of [initialize]; the method reads [password], [salt]
    and [iterations]. *)
Record Options := mkOptions {
  password : option JsString.t;
  opt_salt : option string;
  opt_iterations : option N;
  rebase : option bool
}.

Definition noOptions : Options := mkOptions None None None None.

Definition initialize (env : Env) (opts : option Options) : M unit :=
  _ <- prepare env;;
  let opts := orElse opts noOptions in
  ks <- gets keystore;;
  if ItemKeyStore.truthy (ItemKeyStore.encrypted ks) then
    throw (DataStoreError "already initialized" INITIALIZED)
  else
    let masterKey := passwordToKey (Some (orElse (password opts) [])) in
    let empty :=
      ItemKeyStore.new env
        (ItemKeyStore.mkConfig None (opt_salt opts) (opt_iterations opts)
                               None (Some masterKey)) in
    _ <- (let '(r, saved) := ItemKeyStore.save env empty in
          _ <- lift r;; set_keystore saved);;
    db <- self_ldb;;
    ks <- gets keystore;;
    set_database (keystores_put (ItemKeyStore.toJSON ks) db).

Definition reset : M unit :=
  fun ds =>
    if initialized ds then
      (_ <- self_ldb;;
       _ <- set_database blank;;
       _ <- onKeystore (fun ks => (Return tt, ItemKeyStore.clear true ks));;
       fun ds => (Return tt, {| ldb := false; keystore := keystore ds;
                                sink := sink ds;
                                database := database ds;
                                metrics := metrics ds |})) ds
    else ret tt ds.

Definition lock : M unit :=
  onKeystore (fun ks => (Return tt, ItemKeyStore.clear false ks)).

Definition unlock (pwd : option JsString.t) : M unit :=
  fun ds =>
    if negb (locked ds) then
      (* fast win *)
      ret tt ds
    else
      (let masterKey := passwordToKey pwd in
       onKeystore (ItemKeyStore.load (Some masterKey))) ds.

Definition decrypt (id : string) (c : ItemKeyStore.Ciphertext) : M Item :=
  fun ds => (ItemKeyStore.decrypt id c (keystore ds), ds).

Definition encrypt (env : Env) (item : Item) : M ItemKeyStore.Ciphertext :=
  onKeystore (fun ks => let '(c, ks) := ItemKeyStore.encrypt env item ks in
                        (Return c, ks)).

(** [await Promise.all(all.map(...))] over the rows of a table. *)
Fixpoint decryptAll (all : list (string * ItemRecord))
    : M (list (string * Item)) :=
  match all with
  | [] => ret []
  | (_, i) :: rest =>
      item <- decrypt (rec_id i) (rec_encrypted i);;
      rest <- decryptAll rest;;
      ret ((rec_id i, item) :: rest)
  end.

Definition list : M (gmap string Item) :=
  _ <- checkState;;
  db <- self_ldb;;
  all <- decryptAll (map_to_list (items db));;
  ret (list_to_map all).

Definition get (id : string) : M (option Item) :=
  _ <- checkState;;
  db <- self_ldb;;
  match items db !! id with
  | Some one =>
      one <- decrypt id (rec_encrypted one);;
      ret (Some one)
  | None => ret None
  end.

Definition activeOf (item : Item) : string :=
  if negb (orElse (disabled item) false) then "active" else "".

Definition add (env : Env) (item : option Item) : M Item :=
  _ <- checkState;;
  match item with
  | None => throw (TypeError "expected item")
  | Some item =>
      (* validate, and fill defaults into, {item} *)
      item <- lift (Items.prepare env item None);;
      let item_id := keyOf item in
      let active := activeOf item in
      encrypted <- encrypt env item;;
      let record := {| rec_id := item_id; active := active;
                       rec_encrypted := encrypted |} in
      _ <- onKeystore (ItemKeyStore.save env);;
      db <- self_ldb;;
      ks <- gets keystore;;
      _ <- match items db !! item_id with
           | Some _ => throw (ConstraintError "Key already exists in the object store")
           | None =>
               set_database
                 (keystores_put (ItemKeyStore.toJSON ks) (items_put record db))
           end;;
      _ <- recordMetric "added" (id item) None;;
      ret item
  end.

(** [!item || !item.id]: the item or its id is missing, or the id is the
    empty string. *)
Definition lacksId (item : option Item) : bool :=
  match item with
  | None => true
  | Some item =>
      match id item with
      | None => true
      | Some i => bool_decide (i = "")
      end
  end.

Definition update (env : Env) (item : option Item) : M Item :=
  _ <- checkState;;
  if lacksId item then throw (TypeError "invalid item")
  else
    let item := orElse item emptyObject in
    let item_id := keyOf item in
    db <- self_ldb;;
    match items db !! item_id with
    | None => throw (Error "item does not exist")
    | Some orig =>
        let encrypted := rec_encrypted orig in
        orig <- decrypt item_id encrypted;;
        item <- lift (Items.prepare env item (Some orig));;
        let changes := determineItemChanges (Some orig) (Some item) in
        let active := activeOf item in
        encrypted <- encrypt env item;;
        let record := {| rec_id := item_id; active := active;
                         rec_encrypted := encrypted |} in
        db <- self_ldb;;
        _ <- set_database (items_put record db);;
        _ <- recordMetric "updated" (id item) (Some (fields changes));;
        ret item
    end.

Definition remove (env : Env) (id : string) : M (option Item) :=
  _ <- checkState;;
  db <- self_ldb;;
  match items db !! id with
  | Some item =>
      item <- decrypt id (rec_encrypted item);;
      _ <- onKeystore (fun ks => (Return tt, ItemKeyStore.delete id ks));;
      _ <- onKeystore (ItemKeyStore.save env);;
      db <- self_ldb;;
      ks <- gets keystore;;
      _ <- set_database
             (keystores_put (ItemKeyStore.toJSON ks) (items_delete id db));;
      _ <- recordMetric "deleted" (itemId item) None;;
      ret (Some item)
  | None => ret None
  end.

(** The members the class defines, its constructor, accessors and
    methods. *)
Definition members : Datatypes.list string :=
  ["constructor"; "prepare"; "initialized"; "initialize"; "reset";
   "locked"; "lock"; "unlock"; "list"; "get"; "add"; "update"; "remove"].

(** A call [ds.name(...)] of a member the class does not define: the
    property reads as [undefined], and calling it throws before anything
    of the store is read or written.  (The message names the call as the
    caller wrote it.) *)
Definition notAFunction {A} (name : string) : M A :=
  throw (TypeError ("ds." +:+ name +:+ " is not a function")).

(** [ds.touch(item)], a call the tests make; the class defines no
    [touch]. *)
Definition touch (item : option Item) : M Item := notAFunction "touch".

(** The data operations the class defines, as one type. *)
Inductive DataOp :=
  | List
  | Get (id : string)
  | Add (item : option Item)
  | Update (item : option Item)
  | Remove (id : string).

Definition void {A} (m : M A) : M unit := x <- m;; ret tt.

Definition run (env : Env) (op : DataOp) : M unit :=
  match op with
  | List => void list
  | Get id => void (get id)
  | Add item => void (add env item)
  | Update item => void (update env item)
  | Remove id => void (remove env id)
  end.

End DataStore.

(** ** Sample items and stores *)

Definition s3_prev : Item :=
  {| id := Some "d50fd808-8c0f-47f8-99bc-896750a2cc0e";
     title := Some "My Item"; origins := Some []; tags := Some [];
     entry := Some (<["kind" := "login"]> (<["username" := "foo"]> (<["password" := "baz"]> ∅)));
     disabled := Some false; created := Some "t0"; modified := Some "t1";
     last_used := Some "t0"; history := Some []; extra := ∅ |}.

Definition s3_next : Item :=
  {| id := Some "d50fd808-8c0f-47f8-99bc-896750a2cc0e";
     title := Some "MY Item"; origins := Some []; tags := Some [];
     entry := Some (<["kind" := "login"]> (<["username" := "another-user"]> (<["password" := "zab"]> ∅)));
     disabled := Some false; created := Some "t0"; modified := Some "t2";
     last_used := Some "t0"; history := Some []; extra := ∅ |}.

Definition env0 : Env :=
  {| env_now := "2017-09-01T12:00:00.000Z";
     env_uuid := "d50fd808-8c0f-47f8-99bc-896750a2cc0e";
     env_salt := "c2FsdC1vbmU"; env_key := 11%N;
     env_iv_item := 12%N; env_iv_keys := 13%N |}.

Definition env1 : Env :=
  {| env_now := "2017-09-01T12:05:00.000Z";
     env_uuid := "f96eb083-6103-41f8-9cbc-231efa2957af";
     env_salt := "c2FsdC10d28"; env_key := 21%N;
     env_iv_item := 22%N; env_iv_keys := 23%N |}.

Definition M1 : JsString.t :=
  JsString.of_string "r_w9dG02dPnF-c7N3et7Rg1Fa5yiNB06hwvhMOpgSRo".
Definition M2 : JsString.t :=
  JsString.of_string "mB7zjF9Sx0v1cT4dQe2LkYwPa8uRhNoGi3sVtXyZ5fE".

Definition something : Item :=
  {| id := None; title := Some "My Item"; origins := None; tags := None;
     entry := Some (<["kind" := "login"]> (<["username" := "foo"]> (<["password" := "bar"]> ∅)));
     disabled := None; created := None; modified := None;
     last_used := None; history := None; extra := ∅ |}.

(** [something] as [add] stores it under [env0]. *)
Definition stored_something : Item :=
  {| id := Some "d50fd808-8c0f-47f8-99bc-896750a2cc0e";
     title := Some "My Item"; origins := Some []; tags := Some [];
     entry := Some (<["kind" := "login"]> (<["username" := "foo"]> (<["password" := "bar"]> ∅)));
     disabled := Some false;
     created := Some "2017-09-01T12:00:00.000Z";
     modified := Some "2017-09-01T12:00:00.000Z";
     last_used := Some "2017-09-01T12:00:00.000Z";
     history := Some []; extra := ∅ |}.

(** A new store on an empty bucket; the same store initialized under [M1];
    with one item added; and then locked. *)
Definition fresh_store : DataStore.t :=
  DataStore.new env0 None None localdatabase.blank.

Definition unlocked_store : DataStore.t :=
  snd (DataStore.initialize env0
         (Some (DataStore.mkOptions (Some M1) None None None)) fresh_store).

Definition populated_store : DataStore.t :=
  snd (DataStore.add env0 (Some something) unlocked_store).

Definition locked_store : DataStore.t :=
  snd (DataStore.lock populated_store).

Definition absent_id : string := "f96eb083-6103-41f8-9cbc-231efa2957af".

Definition absent_item : Item :=
  {| id := Some absent_id; title := Some "Some other item";
     origins := None; tags := None;
     entry := Some (<["kind" := "login"]> (<["username" := "bilbo.baggins"]>
                     (<["password" := "hidden treasure"]> ∅)));
     disabled := None; created := None; modified := None;
     last_used := None; history := None; extra := ∅ |}.



(** The stored item with a new password, and with a new title and an
    origin. *)
Definition new_password_item : Item :=
  {| id := id stored_something; title := title stored_something;
     origins := origins stored_something; tags := tags stored_something;
     entry := Some (<["kind" := "login"]> (<["username" := "foo"]> (<["password" := "baz"]> ∅)));
     disabled := disabled stored_something;
     created := created stored_something;
     modified := modified stored_something;
     last_used := last_used stored_something;
     history := history stored_something; extra := ∅ |}.

Definition someplace_item : Item :=
  {| id := id stored_something; title := Some "My Someplace Item";
     origins := Some ["someplace.example"]; tags := tags stored_something;
     entry := entry stored_something;
     disabled := disabled stored_something;
     created := created stored_something;
     modified := modified stored_something;
     last_used := last_used stored_something;
     history := history stored_something; extra := ∅ |}.

(** The options of the rebase scenario. *)
Definition rebase_options : DataStore.Options :=
  DataStore.mkOptions (Some M2) (Some "c2FsdC10d28") None (Some true).

From stdpp Require Import pretty.

(** ** Further sample items *)

(** An item that carries only [tags] and [disabled]. *)
Definition tags_only_item : Item :=
  {| id := None; title := None; origins := None; tags := Some ["work"];
     entry := None; disabled := Some true; created := None; modified := None;
     last_used := None; history := None; extra := ∅ |}.

(** Two items whose [origins] hold the same strings in another order. *)
Definition origins_ab : Item :=
  {| id := None; title := Some "t";
     origins := Some ["a.example"; "b.example"]; tags := None;
     entry := None; disabled := None; created := None; modified := None;
     last_used := None; history := None; extra := ∅ |}.

Definition origins_ba : Item :=
  {| id := None; title := Some "t";
     origins := Some ["b.example"; "a.example"]; tags := None;
     entry := None; disabled := None; created := None; modified := None;
     last_used := None; history := None; extra := ∅ |}.

(** ** The registry of opened databases

    [localdatabase.js] keeps, for the tests, the module variable
    [DATABASES]: unset until [startup], then the set of every Dexie
    object [open] has made.  [World] is that variable together with the
    IndexedDB databases that exist, by name. *)

Module LocalDatabases.

Import localdatabase.

Record World := mkWorld {
  indexedDB : gmap string Dexie;
  DATABASES : option (list string)
}.

(** [bucket || DEFAULT_BUCKET]. *)
Definition bucketName (bucket : option string) : string :=
  match bucket with
  | Some b => if bool_decide (b = "") then DEFAULT_BUCKET else b
  | None => DEFAULT_BUCKET
  end.

(** [open(bucket)]: a new Dexie object on the named database, remembered
    when [DATABASES] is set, and opened, which creates the database with
    its two empty tables when it does not exist yet. *)
Definition open (bucket : option string) (w : World) : string * World :=
  let db := bucketName bucket in
  let remembered := (fun all => all ++ [db]) <$> DATABASES w in
  (db, {| indexedDB := match indexedDB w !! db with
                       | Some _ => indexedDB w
                       | None => <[db := blank]> (indexedDB w)
                       end;
          DATABASES := remembered |}).

Definition startup (w : World) : World :=
  {| indexedDB := indexedDB w; DATABASES := Some [] |}.

(** [teardown()]: deletes every remembered database. *)
Definition teardown (w : World) : World :=
  match DATABASES w with
  | None => w
  | Some all =>
      {| indexedDB := foldl (fun dbs db => delete db dbs) (indexedDB w) all;
         DATABASES := DATABASES w |}
  end.

(** Opening one bucket after the other. *)
Definition openAll (buckets : list (option string)) (w : World) : World :=
  foldl (fun w bucket => snd (open bucket w)) w buckets.

End LocalDatabases.

(** ** Helpers of the data store tests *)

#[global] Instance HistoryEntry_eq_dec : EqDecision HistoryEntry.
Proof. solve_decision. Defined.
#[global] Instance Item_eq_dec : EqDecision Item.
Proof. solve_decision. Defined.

(** [checkList(stored, cached)] of test/datastore-test.js: the two maps
    have the same size and [stored] holds, under every key of [cached], a
    value deeply equal to the cached one.  [true] when no assertion
    fails. *)
Definition checkList (stored cached : gmap string Item) : bool :=
  bool_decide (size stored = size cached)
  && forallb (fun i => bool_decide (stored !! i = cached !! i))
             (map fst (map_to_list cached)).

Definition world0 : LocalDatabases.World :=
  {| LocalDatabases.indexedDB := {["kept" := localdatabase.blank]};
     LocalDatabases.DATABASES := None |}.

(** ** Invariants of a data store *)

(** The keyring is in step with its [encrypted] blob: the blob is the
    current keys sealed under the master key the keyring holds. *)
Definition saved (ks : ItemKeyStore.t) : Prop :=
  exists master c,
    ItemKeyStore.masterKey ks = Some master
    /\ ItemKeyStore.encrypted ks = Some (ItemKeyStore.Container c)
    /\ ItemKeyStore.sealed_by c = master
    /\ ItemKeyStore.sealed c = ItemKeyStore.Json (ItemKeyStore.keys ks).

(** The store is unlocked with its database open, and the [keystores]
    table holds, under the empty group, the keyring as it is in memory. *)
Definition persisted (ds : DataStore.t) : Prop :=
  DataStore.ldb ds = true
  /\ saved (DataStore.keystore ds)
  /\ ItemKeyStore.group (DataStore.keystore ds) = ""
  /\ localdatabase.keystores (DataStore.database ds) !! ""
     = Some (ItemKeyStore.toJSON (DataStore.keystore ds)).

(** Every row of the [items] table sits under its own [id], the primary
    key of the table. *)
Definition rows_keyed (db : localdatabase.Dexie) : Prop :=
  forall key row,
    localdatabase.items db !! key = Some row -> localdatabase.rec_id row = key.

(** What a write that threw has left behind: [unwritten] when neither
    table has changed and the sink has received nothing, [thrown_by_sink]
    when the sink received one more call and threw [e] on it. *)
Definition unwritten (ds ds' : DataStore.t) : Prop :=
  DataStore.database ds' = DataStore.database ds
  /\ DataStore.metrics ds' = DataStore.metrics ds.

Definition thrown_by_sink (e : Exception) (ds ds' : DataStore.t) : Prop :=
  exists call,
    DataStore.metrics ds' = DataStore.metrics ds ++ [call]
    /\ DataStore.sink ds (DataStore.metrics ds) call = Some e.

(** A sink that is no [async] function and throws on every call, and an
    initialized store configured with it. *)
Definition throwing_sink : DataStore.Sink :=
  fun _ _ => Some (Error "sink failed").

Definition throwing_store : DataStore.t :=
  snd (DataStore.initialize env0
         (Some (DataStore.mkOptions (Some M1) None None None))
         (DataStore.new env0 None (Some throwing_sink) localdatabase.blank)).

(** A store made with [new DataStore({keys})] on an empty bucket and
    never prepared. *)
Definition keys_only_store : DataStore.t :=
  DataStore.new env0
    (ItemKeyStore.encrypted (DataStore.keystore populated_store)) None
    localdatabase.blank.

(** A second store on the bucket of [populated_store]. *)
Definition second_store : DataStore.t :=
  DataStore.new env1 None None (DataStore.database populated_store).

(** A row of the [items] table and the pair [list] makes of it: the id of
    the row with the item its ciphertext decrypts to. *)
Definition listed (ds : DataStore.t) (row : string * localdatabase.ItemRecord)
    (pair : string * Item) : Prop :=
  pair.1 = localdatabase.rec_id row.2
  /\ ItemKeyStore.decrypt (localdatabase.rec_id row.2)
       (localdatabase.rec_encrypted row.2) (DataStore.keystore ds)
     = Return pair.2.

(** The row of [stored_something] in the [items] table of
    [populated_store]. *)
Definition stored_row : localdatabase.ItemRecord :=
  {| localdatabase.rec_id := "d50fd808-8c0f-47f8-99bc-896750a2cc0e";
     localdatabase.active := "active";
     localdatabase.rec_encrypted :=
       {| ItemKeyStore.ct_key :=
            {| ItemKeyStore.kty := "oct";
               ItemKeyStore.kid := "d50fd808-8c0f-47f8-99bc-896750a2cc0e";
               ItemKeyStore.alg := "A256GCM";
               ItemKeyStore.material := 11%N |};
          ItemKeyStore.ct_aad := "d50fd808-8c0f-47f8-99bc-896750a2cc0e";
          ItemKeyStore.ct_iv := 12%N;
          ItemKeyStore.ct_plain := ItemKeyStore.Json stored_something |} |}.

(** [new_password_item] as [update] stores it under [env1]: the password
    changed, one history entry that restores the old one. *)
Definition updated_password_item : Item :=
  {| id := Some "d50fd808-8c0f-47f8-99bc-896750a2cc0e";
     title := Some "My Item"; origins := Some []; tags := Some [];
     entry := Some (<["kind" := "login"]> (<["username" := "foo"]> (<["password" := "baz"]> ∅)));
     disabled := Some false;
     created := Some "2017-09-01T12:00:00.000Z";
     modified := Some "2017-09-01T12:05:00.000Z";
     last_used := Some "2017-09-01T12:00:00.000Z";
     history := Some [ {| h_created := "2017-09-01T12:05:00.000Z";
                          h_patch := {["password" := Some "bar"]} |} ];
     extra := ∅ |}.

(** ** The script that generates an encrypted keystore

    [build-utils/generate-encrypted-keystore.js] makes [count] item keys,
    collects them in an object by their [kid], seals the JSON of that
    object under the master key in a compact container with 8192
    iterations and a random salt, writes [{ encrypted }] to the output
    file and logs the ids.  [draw idx] is what the call of
    [createItemKey] in round [idx] gets from outside: the UUID and the
    256 key bits. *)

Module GenerateEncryptedKeystore.

Definition createItemKey (drawn : string * N) : ItemKeyStore.ItemKey :=
  {| ItemKeyStore.kty := "oct"; ItemKeyStore.kid := drawn.1;
     ItemKeyStore.alg := "A256GCM"; ItemKeyStore.material := drawn.2 |}.

(** [object[k] = v] on an object whose properties are listed in the order
    they were first set. *)
Definition setProperty (k : string) (v : ItemKeyStore.ItemKey)
    (object : list (string * ItemKeyStore.ItemKey))
    : list (string * ItemKeyStore.ItemKey) :=
  if bool_decide (k ∈ object.*1)
  then (fun p => if bool_decide (p.1 = k) then (k, v) else p) <$> object
  else object ++ [(k, v)].

(** The object [itemKeys] after the loop
    [for (let idx = 0; count > idx; idx++)]. *)
Definition itemKeys (count : Z) (draw : nat -> string * N)
    : list (string * ItemKeyStore.ItemKey) :=
  foldl (fun object idx =>
           let k := createItemKey (draw idx) in
           setProperty (ItemKeyStore.kid k) k object)
        [] (seq 0 (Z.to_nat count)).

(** What [main] leaves behind: the [encrypted] member of the file it
    writes and the line it logs. *)
Record Output := mkOutput {
  written : ItemKeyStore.Blob;
  logged : string
}.

Definition main (count : Z) (master : JWK.t) (draw : nat -> string * N)
    (p2s : string) (nonce : N) : Output :=
  let itemKeys := itemKeys count draw in
  {| written := ItemKeyStore.wrap master p2s 8192 nonce (list_to_map itemKeys);
     logged := "generated encrypted keysstore of " +:+ pretty count
               +:+ " keys: [" +:+ String.concat ", " itemKeys.*1 +:+ "]" |}.

End GenerateEncryptedKeystore.

(** Four draws with distinct ids. *)
Definition draw4 (idx : nat) : string * N :=
  match idx with
  | 0 => ("0b0e7a3c-1c0e-4d53-9d7d-2f4b6a1e0001", 101%N)
  | 1 => ("0b0e7a3c-1c0e-4d53-9d7d-2f4b6a1e0002", 102%N)
  | 2 => ("0b0e7a3c-1c0e-4d53-9d7d-2f4b6a1e0003", 103%N)
  | _ => ("0b0e7a3c-1c0e-4d53-9d7d-2f4b6a1e0004", 104%N)
  end.

(** * Properties *)

Import DataStoreChanges.

(** ** The change detector *)

Section ChangeDetector.

Lemma indexOf_ge (l : list string) (d : string) : (-1 <= indexOf l d)%Z.
Proof.
  induction l as [|x l IH]; simpl; [lia|].
  case_bool_decide; [lia|].
  destruct (Z.eqb_spec (indexOf l d) (-1)); lia.
Qed.

Lemma indexOf_found (l : list string) (d : string) :
  (indexOf l d =? -1)%Z = false <-> d ∈ l.
Proof.
  induction l as [|x l IH]; simpl.
  - split; [discriminate | intros H; inversion H].
  - case_bool_decide as Hx.
    + subst. split; [intros _; left | reflexivity].
    + pose proof (indexOf_ge l d) as Hge.
      destruct (Z.eqb_spec (indexOf l d) (-1)) as [He|He].
      * split; [discriminate|].
        intros Hin. apply elem_of_cons in Hin as [->|Hin]; [done|].
        apply IH in Hin. discriminate.
      * destruct IH as [IH _].
        split; [intros _; right; by apply IH|].
        intros _. apply Z.eqb_neq. lia.
Qed.

Lemma every_indexOf (prevOrigins nextOrigins : list string) :
  forallb (fun d => negb (indexOf nextOrigins d =? -1)%Z) prevOrigins = true
  <-> (forall d, d ∈ prevOrigins -> d ∈ nextOrigins).
Proof.
  rewrite forallb_forall. split; intros H d Hd.
  - apply indexOf_found, negb_true_iff, H. by apply list_elem_of_In.
  - apply negb_true_iff, indexOf_found, H. by apply list_elem_of_In.
Qed.

(** On duplicate-free arrays the length-and-inclusion test of the source
    is equality of the two sets. *)
Lemma origins_test_set_eq (prevOrigins nextOrigins : list string) :
  NoDup prevOrigins -> NoDup nextOrigins ->
  negb (length prevOrigins =? length nextOrigins)%nat
  || negb (forallb (fun d => negb (indexOf nextOrigins d =? -1)%Z) prevOrigins)
  = bool_decide ((list_to_set prevOrigins : gset string)
                 ≠ list_to_set nextOrigins).
Proof.
  intros Hp Hn. symmetry.
  destruct (forallb _ prevOrigins) eqn:Hall.
  - pose proof (proj1 (every_indexOf _ _) Hall) as Hincl.
    destruct (Nat.eqb_spec (length prevOrigins) (length nextOrigins)) as [Hl|Hl];
      simpl.
    + apply bool_decide_eq_false. intros Hne. apply Hne.
      assert (prevOrigins ≡ₚ nextOrigins) as Hperm.
      { apply submseteq_length_Permutation; [|lia].
        by apply NoDup_submseteq. }
      apply set_eq. intros x. rewrite !elem_of_list_to_set. by rewrite Hperm.
    + apply bool_decide_eq_true. intros Heq. apply Hl.
      apply Permutation_length, NoDup_Permutation; [done..|].
      intros x. rewrite <- !(elem_of_list_to_set (C:=gset string)).
      by rewrite Heq.
  - rewrite orb_true_r. apply bool_decide_eq_true. intros Heq.
    assert (forallb (fun d => negb (indexOf nextOrigins d =? -1)%Z)
                    prevOrigins = true) as Habs; [|congruence].
    apply every_indexOf. intros d Hd.
    rewrite <- (elem_of_list_to_set (C:=gset string)), <- Heq.
    by apply elem_of_list_to_set.
Qed.

(** The [fields] array, field by field. *)
Lemma changedFields_unfold (prev next : option Item) :
  let p := orElse prev emptyObject in
  let n := Object_assign p (orElse next emptyObject) in
  let prevOrigins := orElse (origins p) [] in
  let nextOrigins := orElse (origins n) [] in
  changedFields prev next =
    (if bool_decide (title p ≠ title n) then ["title"] else [])
    ++ (if negb (length prevOrigins =? length nextOrigins)%nat
           || negb (forallb (fun d => negb (indexOf nextOrigins d =? -1)%Z)
                            prevOrigins)
        then ["origins"] else [])
    ++ (if bool_decide (entry_field p "username" ≠ entry_field n "username")
        then ["entry.username"] else [])
    ++ (if bool_decide (entry_field p "password" ≠ entry_field n "password")
        then ["entry.password"] else [])
    ++ (if bool_decide (entry_field p "notes" ≠ entry_field n "notes")
        then ["entry.notes"] else []).
Proof.
  intros p n prevOrigins nextOrigins. subst p n prevOrigins nextOrigins.
  unfold changedFields, entry_field. cbv zeta. cbn [foldl].
  repeat match goal with
         | |- context [if ?b then _ else _] => destruct b
         end; reflexivity.
Qed.

Lemma diff_spec_unfold (prev next : Item) :
  diff_spec prev next =
  String.concat ","
    ((if bool_decide (title prev ≠ title next) then ["title"] else [])
     ++ (if bool_decide (origins_set prev ≠ origins_set next)
         then ["origins"] else [])
     ++ (if bool_decide (entry_field prev "username" ≠ entry_field next "username")
         then ["entry.username"] else [])
     ++ (if bool_decide (entry_field prev "password" ≠ entry_field next "password")
         then ["entry.password"] else [])
     ++ (if bool_decide (entry_field prev "notes" ≠ entry_field next "notes")
         then ["entry.notes"] else [])).
Proof.
  unfold diff_spec, compared_fields, field_differs. simpl.
  destruct (bool_decide (title prev ≠ title next));
    destruct (bool_decide (origins_set prev ≠ origins_set next));
    destruct (bool_decide (entry_field prev "username" ≠ _));
    destruct (bool_decide (entry_field prev "password" ≠ _));
    destruct (bool_decide (entry_field prev "notes" ≠ _));
    reflexivity.
Qed.

Lemma origins_nodup_assign (prev next : Item) :
  origins_nodup prev -> origins_nodup next ->
  origins_nodup (Object_assign prev next).
Proof.
  unfold origins_nodup, Object_assign. simpl.
  destruct (origins next); auto.
Qed.

End ChangeDetector.

(** C4: [determineItemChanges] compares exactly [title], [origins],
    [entry.username], [entry.password] and [entry.notes], in that order:
    on items whose [origins] hold no duplicate (the data model's items),
    its comma-joined result is the specification's [diff_spec] of the
    previous item and the overlaid next item, with [origins] compared as
    sets and the other fields as strings; when [next] carries [title],
    [origins] and [entry] itself, the overlay plays no part. *)
Theorem determineItemChanges_compares (prev next : Item) :
  origins_nodup prev -> origins_nodup next ->
  fields (determineItemChanges (Some prev) (Some next))
  = diff_spec prev (Object_assign prev next)
  /\ (is_Some (title next) -> is_Some (origins next) -> is_Some (entry next) ->
      fields (determineItemChanges (Some prev) (Some next))
      = diff_spec prev next).
Proof.
  intros Hp Hn.
  assert (fields (determineItemChanges (Some prev) (Some next))
          = diff_spec prev (Object_assign prev next)) as Hmain.
  { unfold determineItemChanges. simpl fields.
    rewrite changedFields_unfold, diff_spec_unfold. simpl orElse.
    rewrite origins_test_set_eq; [reflexivity | exact Hp |].
    by apply origins_nodup_assign. }
  split; [exact Hmain|].
  intros [t Ht] [o Ho] [e He]. rewrite Hmain.
  rewrite !diff_spec_unfold.
  unfold origins_set, entry_field, Object_assign. simpl.
  by rewrite Ht, Ho, He.
Qed.

Lemma determineItemChanges_compares_witness :
  fields (determineItemChanges (Some s3_prev) (Some s3_next))
  = diff_spec s3_prev s3_next.
Proof.
  apply (determineItemChanges_compares s3_prev s3_next).
  - apply NoDup_nil_2.
  - apply NoDup_nil_2.
  - eexists; reflexivity.
  - eexists; reflexivity.
  - eexists; reflexivity.
Defined.

Lemma elem_of_optional_field (b : bool) (f g : string) :
  g ∈ (if b then [f] else []) <-> b = true /\ g = f.
Proof.
  destruct b; [rewrite list_elem_of_singleton | rewrite elem_of_nil];
    intuition congruence.
Qed.



(** ** The state gate *)

Section Gate.

Import DataStore.

Lemma checkState_not_initialized (ds : DataStore.t) :
  initialized ds = false ->
  checkState ds
  = (Throw (DataStoreError "data is not initialized" NOT_INITIALIZED), ds).
Proof. intros H. unfold checkState. by rewrite H. Qed.

Lemma checkState_locked (ds : DataStore.t) :
  initialized ds = true -> locked ds = true ->
  checkState ds = (Throw (DataStoreError "datastore is locked" LOCKED), ds).
Proof. intros Hi Hl. unfold checkState. by rewrite Hi, Hl. Qed.

Lemma checkState_unlocked (ds : DataStore.t) :
  initialized ds = true -> locked ds = false ->
  checkState ds = (Return tt, ds).
Proof. intros Hi Hl. unfold checkState. by rewrite Hi, Hl. Qed.

Lemma checkState_inv (ds ds' : DataStore.t) :
  checkState ds = (Return tt, ds') ->
  ds' = ds /\ initialized ds = true /\ locked ds = false.
Proof.
  unfold checkState, throw, ret.
  destruct (initialized ds), (locked ds); simpl; intros H;
    inversion H; auto.
Qed.

Lemma self_ldb_open (ds : DataStore.t) :
  ldb ds = true -> self_ldb ds = (Return (database ds), ds).
Proof. intros H. unfold self_ldb. by rewrite H. Qed.

(** An operation that starts with [checkState] stops there when the
    gate throws. *)
Lemma run_gate (env : Env) (op : DataOp) (ds : DataStore.t) (e : Exception) :
  checkState ds = (Throw e, ds) -> run env op ds = (Throw e, ds).
Proof.
  intros H.
  destruct op; unfold run, void, list, get, add, update, remove;
    unfold bind; by rewrite H.
Qed.

End Gate.

(** C2: each of [list], [get], [add], [update] and [remove] fails with
    [NOT_INITIALIZED] on a store without a persisted keyring and with
    [LOCKED] on a locked one, and in both cases the store, with its
    [items] and [keystores] tables, is left exactly as it was.  The
    class has no [touch]: the call [ds.touch(item)] leaves the store as
    it was too, but on every store, uninitialized and locked ones
    included, what it throws is a [TypeError] and no [DataStoreError],
    so neither [NOT_INITIALIZED] nor [LOCKED]. *)
Theorem data_operations_gated_but_touch (env : Env) (op : DataStore.DataOp)
    (item : option Item) (ds : DataStore.t) :
  (DataStore.initialized ds = false ->
   DataStore.run env op ds
   = (Throw (DataStoreError "data is not initialized" NOT_INITIALIZED), ds))
  /\ (DataStore.initialized ds = true -> DataStore.locked ds = true ->
      DataStore.run env op ds
      = (Throw (DataStoreError "datastore is locked" LOCKED), ds))
  /\ DataStore.touch item ds
     = (Throw (TypeError "ds.touch is not a function"), ds)
  /\ (forall message reason,
        fst (DataStore.touch item ds)
        <> Throw (DataStoreError message reason)).
Proof.
  split; [|split; [|split]].
  - intros H. by apply run_gate, checkState_not_initialized.
  - intros Hi Hl. by apply run_gate, checkState_locked.
  - reflexivity.
  - intros message reason. discriminate.
Qed.

Lemma data_operations_gated_but_touch_witness :
  DataStore.run env1 (DataStore.Add (Some s3_prev)) fresh_store
  = (Throw (DataStoreError "data is not initialized" NOT_INITIALIZED), fresh_store)
  /\ DataStore.run env1 (DataStore.Remove "d50fd808-8c0f-47f8-99bc-896750a2cc0e")
       locked_store
     = (Throw (DataStoreError "datastore is locked" LOCKED), locked_store)
  /\ DataStore.touch (Some stored_something) locked_store
     = (Throw (TypeError "ds.touch is not a function"), locked_store).
Proof.
  split; [|split].
  - apply (data_operations_gated_but_touch env1 (DataStore.Add (Some s3_prev))
             None fresh_store).
    vm_compute. reflexivity.
  - apply (data_operations_gated_but_touch env1
             (DataStore.Remove "d50fd808-8c0f-47f8-99bc-896750a2cc0e")
             None locked_store).
    + vm_compute. reflexivity.
    + vm_compute. reflexivity.
  - apply (data_operations_gated_but_touch env1 DataStore.List
             (Some stored_something) locked_store).
Defined.

(** ** Lock and unlock *)

(** C9: [unlock] on a store that is not locked returns at once and leaves
    the store as it is; [lock] always succeeds and leaves the store
    locked, and locking again changes nothing more. *)
Theorem unlock_lock_idempotent (pwd : option JsString.t) (ds : DataStore.t) :
  (DataStore.locked ds = false -> DataStore.unlock pwd ds = (Return tt, ds))
  /\ fst (DataStore.lock ds) = Return tt
  /\ DataStore.locked (snd (DataStore.lock ds)) = true
  /\ DataStore.lock (snd (DataStore.lock ds))
     = (Return tt, snd (DataStore.lock ds))
  /\ (DataStore.locked ds = true ->
      DataStore.initialized (snd (DataStore.lock ds)) = DataStore.initialized ds
      /\ DataStore.database (snd (DataStore.lock ds)) = DataStore.database ds).
Proof.
  repeat split.
  - intros H. unfold DataStore.unlock. by rewrite H.
Qed.

Lemma unlock_lock_idempotent_witness :
  DataStore.unlock (Some M2) populated_store = (Return tt, populated_store)
  /\ DataStore.initialized (snd (DataStore.lock locked_store))
     = DataStore.initialized locked_store.
Proof.
  split.
  - apply (unlock_lock_idempotent (Some M2) populated_store).
    vm_compute. reflexivity.
  - apply (unlock_lock_idempotent None locked_store).
    vm_compute. reflexivity.
Defined.

(** ** Initialization *)

(** [initialize] prepares the store and then, if a keyring is persisted,
    throws [INITIALIZED] whatever its options are; [rebase] is not read. *)
Lemma initialize_after_prepare (env : Env) (opts : option DataStore.Options)
    (ds : DataStore.t) :
  DataStore.initialized (snd (DataStore.prepare env ds)) = true ->
  DataStore.initialize env opts ds
  = (Throw (DataStoreError "already initialized" INITIALIZED),
     snd (DataStore.prepare env ds)).
Proof.
  intros Hi. unfold DataStore.initialize, DataStore.bind.
  destruct (DataStore.prepare env ds) as [[[]|e] ds1] eqn:Hprep.
  - simpl in *. unfold DataStore.gets.
    unfold DataStore.initialized in Hi. by rewrite Hi.
  - unfold DataStore.prepare, DataStore.ret in Hprep.
    destruct (DataStore.ldb ds); discriminate.
Qed.

Lemma initialize_persisted (env : Env) (opts : option DataStore.Options)
    (ds : DataStore.t) :
  DataStore.ldb ds = true -> DataStore.initialized ds = true ->
  DataStore.initialize env opts ds
  = (Throw (DataStoreError "already initialized" INITIALIZED), ds).
Proof.
  intros Hl Hi.
  assert (DataStore.prepare env ds = (Return tt, ds)) as Hprep.
  { unfold DataStore.prepare. by rewrite Hl. }
  rewrite initialize_after_prepare; rewrite Hprep; done.
Qed.

(** C1 (evaluated on the source): on a store initialized under [M1] and
    holding an item, [initialize] with [rebase: true] and a new master
    fails with [INITIALIZED] and changes nothing, both while the store is
    unlocked and after it was locked. *)
Theorem initialize_rebase_already_initialized :
  DataStore.initialized populated_store = true
  /\ DataStore.locked populated_store = false
  /\ DataStore.initialize env1 (Some rebase_options) populated_store
     = (Throw (DataStoreError "already initialized" INITIALIZED), populated_store)
  /\ DataStore.locked locked_store = true
  /\ DataStore.initialize env1 (Some rebase_options) locked_store
     = (Throw (DataStoreError "already initialized" INITIALIZED), locked_store).
Proof.
  split; [vm_compute; reflexivity|].
  split; [vm_compute; reflexivity|].
  split; [apply initialize_persisted; vm_compute; reflexivity|].
  split; [vm_compute; reflexivity|].
  apply initialize_persisted; vm_compute; reflexivity.
Qed.

(** ** Operations on an id that is not stored *)

Section AbsentId.

Import DataStore localdatabase.

Variables (env : Env) (ds : DataStore.t) (absent : string).
Hypothesis Hinit : initialized ds = true.
Hypothesis Hunlocked : locked ds = false.
Hypothesis Hopen : ldb ds = true.
Hypothesis Habsent : items (database ds) !! absent = None.

Lemma remove_absent : remove env absent ds = (Return None, ds).
Proof using All.
  unfold remove, bind.
  rewrite checkState_unlocked, self_ldb_open by done.
  by rewrite Habsent.
Qed.

Lemma get_absent : get absent ds = (Return None, ds).
Proof using All.
  unfold get, bind.
  rewrite checkState_unlocked, self_ldb_open by done.
  by rewrite Habsent.
Qed.

Lemma update_absent (item : Item) :
  id item = Some absent -> absent ≠ "" ->
  update env (Some item) ds = (Throw (Error "item does not exist"), ds).
Proof using All.
  intros Hid Hne. unfold update, bind.
  rewrite checkState_unlocked by done.
  unfold lacksId, keyOf. simpl. rewrite Hid.
  rewrite bool_decide_eq_false_2 by done. simpl.
  rewrite self_ldb_open by done.
  by rewrite Habsent.
Qed.

(** An item whose id is the empty string counts as one without id. *)
Lemma update_empty_id (item : Item) :
  id item = Some "" ->
  update env (Some item) ds = (Throw (TypeError "invalid item"), ds).
Proof using Hinit Hunlocked.
  intros Hid. unfold update, bind.
  rewrite checkState_unlocked by done.
  unfold lacksId. by rewrite Hid.
Qed.

End AbsentId.

(** C5, as the source has it: on an unlocked store with its database open
    and no row under [absent], [remove] does not fail: it returns [null]
    and leaves the store (tables, keyring and the calls the sink has
    received) as it was; [update] of an item with that id fails and
    leaves the store as it was too. *)
Theorem absent_id_remove_null_update_fails (env : Env) (ds : DataStore.t)
    (absent : string) (item : Item) :
  DataStore.initialized ds = true -> DataStore.locked ds = false ->
  DataStore.ldb ds = true ->
  localdatabase.items (DataStore.database ds) !! absent = None ->
  DataStore.remove env absent ds = (Return None, ds)
  /\ (id item = Some absent ->
      exists e, DataStore.update env (Some item) ds = (Throw e, ds)).
Proof.
  intros Hi Hl Ho Ha. split.
  - by apply remove_absent.
  - intros Hid. destruct (decide (absent = "")) as [->|Hne].
    + eexists. by apply (update_empty_id env ds).
    + eexists. by apply (update_absent env ds absent).
Qed.

Lemma absent_id_remove_null_update_fails_witness :
  DataStore.remove env1 absent_id populated_store = (Return None, populated_store)
  /\ exists e, DataStore.update env1 (Some absent_item) populated_store
               = (Throw e, populated_store).
Proof.
  split.
  - apply (absent_id_remove_null_update_fails env1 populated_store absent_id
             absent_item); vm_compute; reflexivity.
  - apply (absent_id_remove_null_update_fails env1 populated_store absent_id
             absent_item); vm_compute; reflexivity.
Defined.

(** C5 as stated does not hold: on an unlocked store that has no row
    under [absent_id], [remove] does not fail, it returns [null]. *)
Lemma remove_absent_does_not_fail :
  DataStore.initialized populated_store = true
  /\ DataStore.locked populated_store = false
  /\ localdatabase.items (DataStore.database populated_store) !! absent_id = None
  /\ DataStore.remove env1 absent_id populated_store
     = (Return None, populated_store)
  /\ ~ (exists e, fst (DataStore.remove env1 absent_id populated_store) = Throw e).
Proof.
  assert (DataStore.remove env1 absent_id populated_store
          = (Return None, populated_store)) as H
    by (apply remove_absent; vm_compute; reflexivity).
  split; [vm_compute; reflexivity|].
  split; [vm_compute; reflexivity|].
  split; [vm_compute; reflexivity|].
  split; [exact H|].
  intros [e He]. rewrite H in He. discriminate.
Qed.

(** ** Removal *)

Section Removal.

Import DataStore localdatabase.

(** What a [remove] that returns an item has done to the store. *)
Lemma remove_inv (env : Env) (ds ds' : DataStore.t) (id : string)
    (item : Item) :
  remove env id ds = (Return (Some item), ds') ->
  exists record master,
    initialized ds = true /\ ldb ds = true
    /\ items (database ds) !! id = Some record
    /\ ItemKeyStore.decrypt id (rec_encrypted record) (keystore ds)
       = Return item
    /\ ItemKeyStore.masterKey (keystore ds) = Some master
    /\ let ks := keystore ds in
       let keys' := delete id (ItemKeyStore.keys ks) in
       let ks' :=
         {| ItemKeyStore.group := ItemKeyStore.group ks;
            ItemKeyStore.salt := ItemKeyStore.salt ks;
            ItemKeyStore.iterations := ItemKeyStore.iterations ks;
            ItemKeyStore.encrypted :=
              Some (ItemKeyStore.wrap master (ItemKeyStore.salt ks)
                      (ItemKeyStore.iterations ks) (env_iv_keys env) keys');
            ItemKeyStore.masterKey := Some master;
            ItemKeyStore.keys := keys' |} in
       ds' = {| ldb := true; keystore := ks'; sink := sink ds;
                database :=
                  keystores_put (ItemKeyStore.toJSON ks')
                    (items_delete id (database ds));
                metrics := metrics ds ++ [mkMetric "deleted" (itemId item) None] |}.
Proof.
  unfold remove, bind. intros H.
  destruct (checkState ds) as [[[]|e] ds1] eqn:Hgate; [|discriminate].
  apply checkState_inv in Hgate as (-> & Hinit & Hunlocked).
  unfold self_ldb in H.
  destruct (ldb ds) eqn:Hopen; [|discriminate].
  destruct (items (database ds) !! id) as [record|] eqn:Hrow;
    [|discriminate].
  unfold decrypt in H.
  destruct (ItemKeyStore.decrypt id (rec_encrypted record) (keystore ds))
    as [item0|e] eqn:Hdec; [|discriminate].
  unfold locked in Hunlocked.
  destruct (ItemKeyStore.masterKey (keystore ds)) as [master|] eqn:Hmaster;
    [|by rewrite bool_decide_eq_false_2 in Hunlocked by (by intros [? ?])].
  unfold onKeystore, ItemKeyStore.save, ItemKeyStore.delete in H.
  simpl in H. rewrite Hmaster, Hopen in H. simpl in H.
  unfold gets, set_database, recordMetric, ret in H. simpl in H.
  destruct (sink ds (metrics ds) _) eqn:Hsink; [discriminate|].
  inversion H; subst item0.
  exists record, master. repeat split; try done.
Qed.

End Removal.

(** C6: when [remove(id)] has returned the removed item, [get(id)] on the
    resulting store returns [null]; the row of [id] is gone from the
    [items] table and nothing else in it has changed; the keyring holds no
    key for [id], it was saved, and the [keystores] table holds that saved
    keyring, whose sealed contents have no entry for [id]; and the sink
    has received one more call, [deleted]. *)
Theorem remove_deletes_item_and_key (env : Env) (ds ds' : DataStore.t)
    (id : string) (item : Item) :
  DataStore.remove env id ds = (Return (Some item), ds') ->
  DataStore.get id ds' = (Return None, ds')
  /\ localdatabase.items (DataStore.database ds')
     = delete id (localdatabase.items (DataStore.database ds))
  /\ localdatabase.items (DataStore.database ds') !! id = None
  /\ ItemKeyStore.get (DataStore.keystore ds') id = None
  /\ (exists master blob keyring,
        ItemKeyStore.masterKey (DataStore.keystore ds') = Some master
        /\ ItemKeyStore.encrypted (DataStore.keystore ds') = Some blob
        /\ localdatabase.keystores (DataStore.database ds')
             !! ItemKeyStore.group (DataStore.keystore ds')
           = Some (ItemKeyStore.toJSON (DataStore.keystore ds'))
        /\ ItemKeyStore.unwrap master blob = Return keyring
        /\ keyring = ItemKeyStore.keys (DataStore.keystore ds')
        /\ keyring !! id = None)
  /\ DataStore.metrics ds'
     = DataStore.metrics ds
       ++ [DataStore.mkMetric "deleted" (itemId item) None].
Proof.
  intros H. apply remove_inv in H
    as (record & master & Hinit & Hopen & Hrow & Hdec & Hmaster & Hds').
  simpl in Hds'. subst ds'. simpl.
  assert (delete id (localdatabase.items (DataStore.database ds)) !! id = None)
    as Hgone by apply lookup_delete_eq.
  split.
  { unfold DataStore.get, DataStore.bind.
    rewrite checkState_unlocked, self_ldb_open by reflexivity.
    simpl. by rewrite Hgone. }
  split; [reflexivity|].
  split; [exact Hgone|].
  split; [apply lookup_delete_eq|].
  split; [|reflexivity].
  eexists master, _, _. split; [reflexivity|]. split; [reflexivity|].
  split; [apply lookup_insert_eq|].
  split.
  { unfold ItemKeyStore.unwrap, ItemKeyStore.wrap. simpl.
    by rewrite bool_decide_eq_true_2. }
  split; [reflexivity | apply lookup_delete_eq].
Qed.

Lemma remove_deletes_item_and_key_witness :
  DataStore.get "d50fd808-8c0f-47f8-99bc-896750a2cc0e"
    (snd (DataStore.remove env1 "d50fd808-8c0f-47f8-99bc-896750a2cc0e"
            populated_store))
  = (Return None,
     snd (DataStore.remove env1 "d50fd808-8c0f-47f8-99bc-896750a2cc0e"
            populated_store)).
Proof.
  apply (remove_deletes_item_and_key env1 populated_store _
           "d50fd808-8c0f-47f8-99bc-896750a2cc0e" stored_something).
  vm_compute. reflexivity.
Defined.

(** ** Touching an item *)

(** C3 (evaluated on the source): the class defines no [touch].  The call
    [ds.touch(item)] throws a [TypeError] on every store and for every
    argument, and leaves the store as it was.  On the unlocked store that
    holds [stored_something] it returns no item, persists nothing and
    sends the sink no [touched] call; on an id with no row what it throws
    is no [DataStoreError], so not [MISSING_ITEM]. *)
Theorem touch_is_not_a_function :
  ~ ("touch" ∈ DataStore.members)
  /\ (forall item ds,
        DataStore.touch item ds
        = (Throw (TypeError "ds.touch is not a function"), ds))
  /\ DataStore.initialized populated_store = true
  /\ DataStore.locked populated_store = false
  /\ fst (DataStore.get "d50fd808-8c0f-47f8-99bc-896750a2cc0e" populated_store)
     = Return (Some stored_something)
  /\ DataStore.touch (Some stored_something) populated_store
     = (Throw (TypeError "ds.touch is not a function"), populated_store)
  /\ localdatabase.items (DataStore.database populated_store) !! absent_id
     = None
  /\ (forall message,
        fst (DataStore.touch (Some absent_item) populated_store)
        <> Throw (DataStoreError message MISSING_ITEM)).
Proof.
  split.
  { intros H. apply (bool_decide_eq_true_2 _) in H. vm_compute in H.
    discriminate. }
  split; [reflexivity|].
  split; [vm_compute; reflexivity|].
  split; [vm_compute; reflexivity|].
  split; [vm_compute; reflexivity|].
  split; [reflexivity|].
  split; [vm_compute; reflexivity|].
  intros message. discriminate.
Qed.

(** ** Wrapping the keyring *)

(** *** The octets of a password *)

Ltac arith := zify; Z.to_euclidean_division_equations; lia.

Section Encoding.

Import JsString.

(** The octets of a code point tell where they end and which code point
    they came from. *)
Lemma encodeCodePoint_prefix_free (x y : N) (r r' : list N) :
  (x < 0x110000)%N -> (y < 0x110000)%N ->
  encodeCodePoint x ++ r = encodeCodePoint y ++ r' -> x = y /\ r = r'.
Proof.
  intros Hx Hy. unfold encodeCodePoint.
  repeat case_match; simpl; intros Heq;
    repeat match goal with
           | H : (_ <? _)%N = true |- _ => apply N.ltb_lt in H
           | H : (_ <? _)%N = false |- _ => apply N.ltb_ge in H
           end;
    injection Heq as ?; subst;
    lazymatch goal with
    | |- _ /\ ?a = ?a => split; [arith | reflexivity]
    | _ => exfalso; arith
    end.
Qed.

Lemma encodeCodePoint_not_nil (cp : N) : encodeCodePoint cp <> [].
Proof. unfold encodeCodePoint. by repeat case_match. Qed.

(** A well-formed string that is not empty starts with the code units of
    a code point, whose octets its encoding starts with. *)
Lemma wellFormed_head (s : JsString.t) :
  wellFormed s = true -> s <> [] ->
  exists cp rest,
    (cp < 0x110000)%N /\ s = unitsOf cp ++ rest
    /\ utf8 s = encodeCodePoint cp ++ utf8 rest
    /\ wellFormed rest = true.
Proof.
  destruct s as [|u rest]; [done|]. intros Hwf _. simpl in *.
  destruct (isHigh u) eqn:Hhigh.
  - destruct rest as [|low rest']; [done|].
    destruct (isLow low) eqn:Hlow; [|done]. simpl in Hwf.
    exists (codePoint u low), rest'.
    unfold isHigh, isLow in *.
    apply andb_true_iff in Hhigh as [H1%N.leb_le H2%N.ltb_lt].
    apply andb_true_iff in Hlow as [H3%N.leb_le H4%N.ltb_lt].
    unfold codePoint, unitsOf.
    split; [lia|]. split; [|done].
    rewrite (proj2 (N.ltb_ge _ _)) by lia. simpl. f_equal; [|f_equal]; arith.
  - destruct (isLow u) eqn:Hlow; [done|]. simpl in Hwf.
    apply andb_true_iff in Hwf as [Hu%N.ltb_lt Hwf].
    exists u, rest. unfold unitsOf.
    split; [lia|]. split; [|done].
    by rewrite (proj2 (N.ltb_lt _ _)) by lia.
Qed.

Lemma utf8_inj_length (n : nat) (a b : JsString.t) :
  length a <= n ->
  wellFormed a = true -> wellFormed b = true -> utf8 a = utf8 b -> a = b.
Proof.
  revert a b. induction n as [|n IH]; intros a b Hn Ha Hb Heq.
  - destruct a; [|simpl in Hn; lia].
    destruct b as [|u b]; [done|].
    destruct (wellFormed_head (u :: b) Hb) as (cp & rest & _ & _ & Hutf & _);
      [done|].
    rewrite Hutf in Heq. simpl in Heq. symmetry in Heq.
    apply app_eq_nil in Heq as [Heq _]. by apply encodeCodePoint_not_nil in Heq.
  - destruct (decide (a = [])) as [->|Hne].
    + destruct b as [|u b]; [done|].
      destruct (wellFormed_head (u :: b) Hb) as (cp & rest & _ & _ & Hutf & _);
        [done|].
      rewrite Hutf in Heq. simpl in Heq. symmetry in Heq.
      apply app_eq_nil in Heq as [Heq _].
      by apply encodeCodePoint_not_nil in Heq.
    + destruct (wellFormed_head a Ha Hne)
        as (cp & rest & Hcp & -> & Hutf & Hrest).
      destruct (decide (b = [])) as [->|Hne'].
      { rewrite Hutf in Heq. simpl in Heq.
        apply app_eq_nil in Heq as [Heq _].
        by apply encodeCodePoint_not_nil in Heq. }
      destruct (wellFormed_head b Hb Hne')
        as (cp' & rest' & Hcp' & -> & Hutf' & Hrest').
      rewrite Hutf, Hutf' in Heq.
      apply encodeCodePoint_prefix_free in Heq as [-> Heq]; [|done..].
      f_equal. apply IH; [|done..].
      rewrite length_app in Hn. unfold unitsOf in Hn.
      destruct (cp' <? 0x10000)%N; simpl in Hn; lia.
Qed.

(** The octets of [A], U+00E9, U+20AC and U+1F600, and of a lead
    surrogate that is followed by no trail surrogate. *)
Example utf8_samples :
  utf8 [0x41; 0xE9; 0x20AC; 0xD83D; 0xDE00]%N
  = [0x41; 0xC3; 0xA9; 0xE2; 0x82; 0xAC; 0xF0; 0x9F; 0x98; 0x80]%N
  /\ utf8 [0xD83D; 0x41]%N = [0xEF; 0xBF; 0xBD; 0x41]%N
  /\ wellFormed [0x41; 0xE9; 0x20AC; 0xD83D; 0xDE00]%N = true
  /\ wellFormed [0xD83D; 0x41]%N = false.
Proof. repeat split; vm_compute; reflexivity. Qed.

(** On strings without unpaired surrogates the encoding loses nothing. *)
Lemma utf8_inj (a b : JsString.t) :
  wellFormed a = true -> wellFormed b = true -> utf8 a = utf8 b -> a = b.
Proof. by apply (utf8_inj_length (length a)). Qed.

(** Code units below 128 are encoded as themselves. *)
Lemma utf8_ascii (p s : JsString.t) :
  Forall (fun u => (u < 0x80)%N) p -> utf8 (p ++ s) = p ++ utf8 s.
Proof.
  induction 1 as [|u p Hu _ IH]; [done|]. simpl.
  unfold isHigh, isLow, encodeCodePoint.
  rewrite (proj2 (N.leb_gt 0xD800 u)) by lia.
  rewrite (proj2 (N.leb_gt 0xDC00 u)) by lia. simpl.
  rewrite (proj2 (N.ltb_lt u 0x80)) by lia. simpl. by rewrite IH.
Qed.

Lemma PASSWORD_PREFIX_ascii : Forall (fun u => (u < 0x80)%N) PASSWORD_PREFIX.
Proof.
  apply (bool_decide_unpack (Forall (fun u => (u < 0x80)%N) PASSWORD_PREFIX)).
  vm_compute. exact I.
Qed.

(** The octets of a master key are those of the prefix followed by those
    of the password. *)
Lemma passwordToKey_octets (pwd : option JsString.t) :
  passwordToKey pwd
  = {| JWK.kty := "oct";
       JWK.k := PASSWORD_PREFIX ++ utf8 (orElse pwd []);
       JWK.use := "enc" |}.
Proof.
  unfold passwordToKey. cbv zeta.
  by rewrite (utf8_ascii _ _ PASSWORD_PREFIX_ascii).
Qed.

(** Two passwords give the same master key exactly when they have the
    same octets. *)
Lemma passwordToKey_utf8 (pwd pwd' : option JsString.t) :
  passwordToKey pwd = passwordToKey pwd'
  <-> utf8 (orElse pwd []) = utf8 (orElse pwd' []).
Proof.
  rewrite !passwordToKey_octets. split.
  - intros H. assert (JWK.k (JWK.mk "oct"
                               (PASSWORD_PREFIX ++ utf8 (orElse pwd [])) "enc")
                     = JWK.k (JWK.mk "oct"
                                (PASSWORD_PREFIX ++ utf8 (orElse pwd' [])) "enc"))
      as Hk by (by rewrite H).
    cbn [JWK.k] in Hk. by apply app_inv_head in Hk.
  - by intros ->.
Qed.

End Encoding.

(** Distinct well-formed master passwords give distinct master keys. *)
Lemma passwordToKey_inj (pwd pwd' : JsString.t) :
  JsString.wellFormed pwd = true -> JsString.wellFormed pwd' = true ->
  passwordToKey (Some pwd) = passwordToKey (Some pwd') -> pwd = pwd'.
Proof.
  intros Hwf Hwf' H. apply passwordToKey_utf8 in H. by apply utf8_inj.
Qed.

(** C7: a keyring wrapped under a master key unwraps to the same keyring
    under that key and fails with [INVALID_MASTER_KEY] under any other,
    in particular under the key of any master password with other octets,
    which every other password without unpaired surrogates has; a keyring
    that was saved and cleared loads back, keys and all, under its master
    key and under no other. *)
Theorem wrap_unwrap_roundtrip (env : Env) (salt : string) (iterations : N)
    (nonce : N) (keyring : gmap string ItemKeyStore.ItemKey) :
  (forall master,
     ItemKeyStore.unwrap master
       (ItemKeyStore.wrap master salt iterations nonce keyring)
     = Return keyring)
  /\ (forall master other, other ≠ master ->
        ItemKeyStore.unwrap other
          (ItemKeyStore.wrap master salt iterations nonce keyring)
        = Throw (DataStoreError "invalid master key" INVALID_MASTER_KEY))
  /\ (forall pwd other : JsString.t,
        JsString.utf8 other ≠ JsString.utf8 pwd ->
        ItemKeyStore.unwrap (passwordToKey (Some other))
          (ItemKeyStore.wrap (passwordToKey (Some pwd)) salt iterations
             nonce keyring)
        = Throw (DataStoreError "invalid master key" INVALID_MASTER_KEY))
  /\ (forall pwd other : JsString.t,
        JsString.wellFormed pwd = true -> JsString.wellFormed other = true ->
        other ≠ pwd ->
        ItemKeyStore.unwrap (passwordToKey (Some other))
          (ItemKeyStore.wrap (passwordToKey (Some pwd)) salt iterations
             nonce keyring)
        = Throw (DataStoreError "invalid master key" INVALID_MASTER_KEY))
  /\ (forall ks master,
        ItemKeyStore.masterKey ks = Some master ->
        ItemKeyStore.keys ks = keyring ->
        let saved := snd (ItemKeyStore.save env ks) in
        ItemKeyStore.load (Some master) (ItemKeyStore.clear false saved)
        = (Return tt, saved)
        /\ ItemKeyStore.keys saved = keyring
        /\ forall other, other ≠ master ->
             ItemKeyStore.load (Some other) (ItemKeyStore.clear false saved)
             = (Throw (DataStoreError "invalid master key" INVALID_MASTER_KEY),
                ItemKeyStore.clear false saved)).
Proof.
  assert (forall master other, other ≠ master ->
            ItemKeyStore.unwrap other
              (ItemKeyStore.wrap master salt iterations nonce keyring)
            = Throw (DataStoreError "invalid master key" INVALID_MASTER_KEY))
    as Hother.
  { intros master other Hne. unfold ItemKeyStore.unwrap, ItemKeyStore.wrap.
    simpl. by rewrite bool_decide_eq_false_2. }
  split; [|split; [exact Hother|split; [|split]]].
  - intros master. unfold ItemKeyStore.unwrap, ItemKeyStore.wrap. simpl.
    by rewrite bool_decide_eq_true_2.
  - intros pwd other Hne. apply Hother. intros Heq.
    by apply passwordToKey_utf8 in Heq.
  - intros pwd other Hwf Hwf' Hne. apply Hother. intros Heq.
    by apply passwordToKey_inj in Heq.
  - intros ks master Hmaster Hkeys saved. subst saved.
    unfold ItemKeyStore.save. rewrite Hmaster. simpl.
    unfold ItemKeyStore.load, ItemKeyStore.clear, ItemKeyStore.unwrap,
      ItemKeyStore.wrap. simpl.
    rewrite bool_decide_eq_true_2 by done.
    split; [reflexivity|]. split; [exact Hkeys|].
    intros other Hne. by rewrite bool_decide_eq_false_2.
Qed.

Lemma wrap_unwrap_roundtrip_witness :
  ItemKeyStore.unwrap (passwordToKey (Some M2))
    (ItemKeyStore.wrap (passwordToKey (Some M1)) "c2FsdA" 8192 7
       (ItemKeyStore.keys (DataStore.keystore populated_store)))
  = Throw (DataStoreError "invalid master key" INVALID_MASTER_KEY)
  /\ ItemKeyStore.load (Some (passwordToKey (Some M2)))
       (ItemKeyStore.clear false
          (snd (ItemKeyStore.save env1 (DataStore.keystore populated_store))))
     = (Throw (DataStoreError "invalid master key" INVALID_MASTER_KEY),
        ItemKeyStore.clear false
          (snd (ItemKeyStore.save env1 (DataStore.keystore populated_store)))).
Proof.
  split.
  - apply (proj1 (proj2 (proj2 (proj2
             (wrap_unwrap_roundtrip env1 "c2FsdA" 8192 7
                (ItemKeyStore.keys (DataStore.keystore populated_store))))))
             M1 M2).
    + vm_compute. reflexivity.
    + vm_compute. reflexivity.
    + intros H. vm_compute in H. discriminate.
  - assert (ItemKeyStore.masterKey (DataStore.keystore populated_store)
            = Some (passwordToKey (Some M1))) as Hmaster
      by (vm_compute; reflexivity).
    apply (proj2 (proj2 (proj2 (proj2
             (wrap_unwrap_roundtrip env1 "c2FsdA" 8192 7
                (ItemKeyStore.keys (DataStore.keystore populated_store))))))
             (DataStore.keystore populated_store) (passwordToKey (Some M1))
             Hmaster eq_refl).
    intros H. vm_compute in H. discriminate.
Defined.

(** ** Invalid items *)

Section InvalidItems.

Import DataStore localdatabase.



End InvalidItems.




(** ** Scenarios of the test suite, run on the embedding *)

Example added_metric :
  DataStore.metrics populated_store
  = [DataStore.mkMetric "added"
       (Some "d50fd808-8c0f-47f8-99bc-896750a2cc0e") None].
Proof. vm_compute. reflexivity. Qed.

Example get_returns_added :
  fst (DataStore.get "d50fd808-8c0f-47f8-99bc-896750a2cc0e" populated_store)
  = Return (Some stored_something).
Proof. vm_compute. reflexivity. Qed.

Example update_password_metric :
  last (DataStore.metrics
          (snd (DataStore.update env1 (Some new_password_item) populated_store)))
  = Some (DataStore.mkMetric "updated"
            (Some "d50fd808-8c0f-47f8-99bc-896750a2cc0e")
            (Some "entry.password")).
Proof. vm_compute. reflexivity. Qed.

Example update_title_origins_metric :
  last (DataStore.metrics
          (snd (DataStore.update env1 (Some someplace_item) populated_store)))
  = Some (DataStore.mkMetric "updated"
            (Some "d50fd808-8c0f-47f8-99bc-896750a2cc0e")
            (Some "title,origins")).
Proof. vm_compute. reflexivity. Qed.

Example lock_unlock_list :
  fst (DataStore.list (snd (DataStore.unlock (Some M1) locked_store)))
  = fst (DataStore.list populated_store)
  /\ fst (DataStore.list populated_store)
     = Return {["d50fd808-8c0f-47f8-99bc-896750a2cc0e" := stored_something]}.
Proof. split; vm_compute; reflexivity. Qed.

Example unlock_wrong_master :
  DataStore.unlock (Some M2) locked_store
  = (Throw (DataStoreError "invalid master key" INVALID_MASTER_KEY),
     locked_store).
Proof.
  unfold DataStore.unlock.
  replace (DataStore.locked locked_store) with true by (vm_compute; reflexivity).
  simpl. unfold DataStore.onKeystore.
  replace (ItemKeyStore.load (Some (passwordToKey (Some M2)))
             (DataStore.keystore locked_store))
    with (@Throw unit (DataStoreError "invalid master key" INVALID_MASTER_KEY),
          DataStore.keystore locked_store)
    by (vm_compute; reflexivity).
  reflexivity.
Qed.

(** * Further properties of the sources *)

(** ** [determineItemChanges] *)

Lemma every_indexOf_self (l : list string) :
  forallb (fun d => negb (indexOf l d =? -1)%Z) l = true.
Proof. by apply every_indexOf. Qed.

Lemma origins_test_permutation (l1 l2 : list string) :
  l1 ≡ₚ l2 ->
  negb (length l1 =? length l2)%nat
  || negb (forallb (fun d => negb (indexOf l2 d =? -1)%Z) l1) = false.
Proof.
  intros Hperm.
  rewrite (Permutation_length Hperm), Nat.eqb_refl. simpl.
  apply negb_false_iff, every_indexOf. intros d Hd. by rewrite <- Hperm.
Qed.

(** X1: when each of [title], [origins] and [entry] of [next] is missing
    or equal to the one of [prev], no change is reported, whatever else
    differs between the two objects; this covers a missing [next] and an
    item compared with itself. *)
Theorem determineItemChanges_unchanged (prev next : option Item) :
  let p := orElse prev emptyObject in
  let n := orElse next emptyObject in
  (title n = None \/ title n = title p) ->
  (origins n = None \/ origins n = origins p) ->
  (entry n = None \/ entry n = entry p) ->
  fields (determineItemChanges prev next) = "".
Proof.
  intros p n Ht Ho He.
  assert (title (Object_assign p n) = title p) as Ht'.
  { unfold Object_assign. simpl. destruct Ht as [->| ->]; [done|].
    by destruct (title p). }
  assert (origins (Object_assign p n) = origins p) as Ho'.
  { unfold Object_assign. simpl. destruct Ho as [->| ->]; [done|].
    by destruct (origins p). }
  assert (entry (Object_assign p n) = entry p) as He'.
  { unfold Object_assign. simpl. destruct He as [->| ->]; [done|].
    by destruct (entry p). }
  unfold determineItemChanges. simpl fields.
  rewrite changedFields_unfold. fold p. fold n.
  unfold entry_field. rewrite Ht', Ho', He'.
  rewrite origins_test_permutation by reflexivity.
  by rewrite !bool_decide_eq_false_2 by (intros H; by apply H).
Qed.

Lemma determineItemChanges_unchanged_witness :
  fields (determineItemChanges (Some s3_prev) (Some tags_only_item)) = ""
  /\ fields (determineItemChanges (Some s3_prev) None) = ""
  /\ fields (determineItemChanges (Some s3_prev) (Some s3_prev)) = "".
Proof.
  split; [|split].
  - apply (determineItemChanges_unchanged (Some s3_prev) (Some tags_only_item));
      left; reflexivity.
  - apply (determineItemChanges_unchanged (Some s3_prev) None);
      left; reflexivity.
  - apply (determineItemChanges_unchanged (Some s3_prev) (Some s3_prev));
      right; reflexivity.
Defined.

(** X2: the order of [origins] does not matter: when the origins of
    [next] are a rearrangement of those of [prev], [origins] is not among
    the changed fields. *)
Theorem origins_permutation_not_reported (prev next : Item)
    (prevOrigins nextOrigins : list string) :
  origins prev = Some prevOrigins -> origins next = Some nextOrigins ->
  prevOrigins ≡ₚ nextOrigins ->
  "origins" ∉ changedFields (Some prev) (Some next).
Proof.
  intros Hp Hn Hperm. rewrite changedFields_unfold. simpl orElse.
  unfold Object_assign at 2. simpl origins. rewrite Hp, Hn. simpl.
  rewrite origins_test_permutation by done.
  rewrite !elem_of_app, !elem_of_optional_field, elem_of_nil.
  intros [[_ ?]|[[]|[[_ ?]|[[_ ?]|[_ ?]]]]]; discriminate.
Qed.

Lemma origins_permutation_not_reported_witness :
  "origins" ∉ changedFields (Some origins_ab) (Some origins_ba).
Proof.
  apply (origins_permutation_not_reported origins_ab origins_ba
           ["a.example"; "b.example"] ["b.example"; "a.example"]).
  - reflexivity.
  - reflexivity.
  - apply perm_swap.
Defined.

(** X3: compared with a missing previous item, [next] has changed in
    exactly what it carries: [title] when it has one, [origins] when it
    has a non-empty array, and each of the three entry fields its [entry]
    holds. *)
Theorem determineItemChanges_from_nothing (next : Item) :
  let reported := changedFields None (Some next) in
  ("title" ∈ reported <-> is_Some (title next))
  /\ ("origins" ∈ reported <->
      exists l, origins next = Some l /\ l ≠ [])
  /\ (forall f, f ∈ ["username"; "password"; "notes"] ->
      ("entry." +:+ f ∈ reported <->
       exists e, entry next = Some e /\ is_Some (e !! f))).
Proof.
  intros reported. subst reported. rewrite changedFields_unfold.
  simpl orElse.
  assert (Object_assign emptyObject next = 
          {| id := id next; title := title next; origins := origins next;
             tags := tags next; entry := entry next;
             disabled := disabled next; created := created next;
             modified := modified next; last_used := last_used next;
             history := history next; extra := ∅ ∪ extra next |}) as ->.
  { unfold Object_assign, emptyObject. simpl.
    by destruct (id next), (title next), (origins next), (tags next),
         (entry next), (disabled next), (created next), (modified next),
         (last_used next), (history next). }
  unfold entry_field. simpl.
  assert (forall (o : option string), None ≠ o <-> is_Some o) as Hsome.
  { intros [s|]; split.
    - intros _. by eexists.
    - intros _. done.
    - intros H. by destruct H.
    - intros [? ?]. discriminate. }
  assert (forall f, (∅ : gmap string string) !! f = None) as Hempty
    by (intros f; apply lookup_empty).
  split; [|split].
  - rewrite !elem_of_app, !elem_of_optional_field, !bool_decide_eq_true.
    split.
    + intros [[H _]|[[_ ?]|[[_ ?]|[[_ ?]|[_ ?]]]]]; try discriminate.
      by apply (proj1 (Hsome _)).
    + intros H. left. split; [by apply (proj2 (Hsome _)) | done].
  - rewrite !elem_of_app, !elem_of_optional_field. split.
    + intros [[_ ?]|[[H _]|[[_ ?]|[[_ ?]|[_ ?]]]]]; try discriminate.
      destruct (origins next) as [l|]; simpl in H; [|discriminate].
      exists l. split; [done|]. intros ->. discriminate.
    + intros (l & Hl & Hne). right; left. split; [|done]. rewrite Hl.
      destruct l; [done|reflexivity].
  - intros f Hf.
    rewrite !elem_of_app, !elem_of_optional_field, !bool_decide_eq_true,
      !Hempty.
    split.
    + intros [[_ ?]|[[_ ?]|[[Hb Heq]|[[Hb Heq]|[Hb Heq]]]]];
        try discriminate;
        injection Heq as Heq; change ("" +:+ f) with f in Heq; subst f;
        apply (proj1 (Hsome _)) in Hb; (destruct (entry next) as [e|];
        [by exists e | simpl in Hb; rewrite lookup_empty in Hb;
                       by destruct Hb]).
    + intros (e & He & Hin). rewrite He. simpl.
      apply elem_of_cons in Hf as [->|Hf];
        [|apply elem_of_cons in Hf as [->|Hf];
          [|apply list_elem_of_singleton in Hf as ->]].
      * right; right; left. split; [by apply (proj2 (Hsome _)) | done].
      * right; right; right; left.
        split; [by apply (proj2 (Hsome _)) | done].
      * right; right; right; right.
        split; [by apply (proj2 (Hsome _)) | done].
Qed.

(** X4: whatever the two arguments are, the changed fields are drawn
    from [title], [origins], [entry.username], [entry.password] and
    [entry.notes], each at most once and in that order. *)
Theorem changedFields_canonical (prev next : option Item) :
  sublist (changedFields prev next) compared_fields
  /\ NoDup (changedFields prev next).
Proof.
  rewrite changedFields_unfold. unfold compared_fields.
  repeat match goal with
         | |- context [if ?b then _ else _] => destruct b
         end;
    (split;
     [ simpl; repeat first [ apply sublist_nil | apply sublist_skip
                           | apply sublist_cons ]
     | simpl; repeat (apply NoDup_cons; split;
               [rewrite ?elem_of_cons, elem_of_nil; intuition discriminate|]);
       apply NoDup_nil_2 ]).
Qed.

(** ** [passwordToKey] *)

(** X5: two passwords give the same master key exactly when they have
    the same UTF-8 octets, a missing password counting as the empty one;
    for passwords without unpaired surrogates that is exactly when they
    are the same string, whereas two different passwords with an unpaired
    surrogate can give the same key. *)
Theorem passwordToKey_eq_iff (pwd pwd' : option JsString.t) :
  (passwordToKey pwd = passwordToKey pwd'
   <-> JsString.utf8 (orElse pwd []) = JsString.utf8 (orElse pwd' []))
  /\ (JsString.wellFormed (orElse pwd []) = true ->
      JsString.wellFormed (orElse pwd' []) = true ->
      (passwordToKey pwd = passwordToKey pwd'
       <-> orElse pwd [] = orElse pwd' []))
  /\ ([0xD800%N] <> [0xDC00%N]
      /\ passwordToKey (Some [0xD800%N]) = passwordToKey (Some [0xDC00%N])).
Proof.
  split; [apply passwordToKey_utf8|]. split.
  - intros Hwf Hwf'. rewrite passwordToKey_utf8. split.
    + by apply utf8_inj.
    + by intros ->.
  - split; [discriminate|]. by apply passwordToKey_utf8.
Qed.

Lemma passwordToKey_eq_iff_witness :
  passwordToKey (Some M1) = passwordToKey None
  <-> orElse (Some M1) [] = orElse None [].
Proof.
  apply (passwordToKey_eq_iff (Some M1) None).
  - vm_compute. reflexivity.
  - vm_compute. reflexivity.
Defined.

(** ** The registry of opened databases *)

Section Registry.

Import LocalDatabases localdatabase.

Lemma open_indexedDB_other (bucket : option string) (w : World) (db : string) :
  db ≠ bucketName bucket ->
  indexedDB (snd (open bucket w)) !! db = indexedDB w !! db.
Proof.
  intros Hne. unfold open. simpl.
  destruct (indexedDB w !! bucketName bucket); [done|].
  by rewrite lookup_insert_ne.
Qed.

Lemma open_indexedDB_same (bucket : option string) (w : World) :
  indexedDB (snd (open bucket w)) !! bucketName bucket
  = Some (default blank (indexedDB w !! bucketName bucket)).
Proof.
  unfold open. simpl.
  destruct (indexedDB w !! bucketName bucket) eqn:H; simpl.
  - done.
  - by rewrite lookup_insert_eq.
Qed.

Lemma openAll_cons (b : option string) (buckets : list (option string))
    (w : World) :
  openAll (b :: buckets) w = openAll buckets (snd (open b w)).
Proof. reflexivity. Qed.

Lemma openAll_DATABASES (buckets : list (option string)) (w : World) :
  DATABASES (openAll buckets w)
  = (fun all => all ++ map bucketName buckets) <$> DATABASES w.
Proof.
  revert w. induction buckets as [|b buckets IH]; intros w.
  - simpl. destruct (DATABASES w); simpl; [by rewrite app_nil_r | done].
  - rewrite openAll_cons, IH. simpl.
    destruct (DATABASES w); simpl; [by rewrite <- app_assoc | done].
Qed.

Lemma openAll_indexedDB_other (buckets : list (option string)) (w : World)
    (db : string) :
  db ∉ map bucketName buckets ->
  indexedDB (openAll buckets w) !! db = indexedDB w !! db.
Proof.
  revert w. induction buckets as [|b buckets IH]; intros w Hnotin; [done|].
  simpl in Hnotin. apply not_elem_of_cons in Hnotin as [Hne Hnotin].
  rewrite openAll_cons, IH by done.
  by apply open_indexedDB_other.
Qed.

Lemma openAll_indexedDB_opened (buckets : list (option string)) (w : World)
    (db : string) :
  db ∈ map bucketName buckets -> is_Some (indexedDB (openAll buckets w) !! db).
Proof.
  revert w. induction buckets as [|b buckets IH]; intros w Hin.
  - by apply elem_of_nil in Hin.
  - simpl in Hin. rewrite openAll_cons.
    destruct (decide (db ∈ map bucketName buckets)) as [Hlater|Hlater].
    + by apply IH.
    + apply elem_of_cons in Hin as [->|Hin]; [|done].
      rewrite openAll_indexedDB_other by done.
      rewrite open_indexedDB_same. by eexists.
Qed.

Lemma deleteAll_lookup (all : list string) (dbs : gmap string Dexie)
    (db : string) :
  foldl (fun dbs db => delete db dbs) dbs all !! db
  = if bool_decide (db ∈ all) then None else dbs !! db.
Proof.
  revert dbs. induction all as [|a all IH]; intros dbs; simpl.
  - done.
  - rewrite IH. destruct (decide (db = a)) as [->|Hne].
    + rewrite lookup_delete_eq.
      rewrite (bool_decide_eq_true_2 (a ∈ a :: all)) by left.
      by case_bool_decide.
    + rewrite lookup_delete_ne by done.
      destruct (decide (db ∈ all)) as [Hin|Hnotin].
      * rewrite !bool_decide_eq_true_2; [done| by right | done].
      * rewrite !bool_decide_eq_false_2; [done| |done].
        intros Hin. apply elem_of_cons in Hin as [?|?]; done.
Qed.

End Registry.

(** X6: [open] takes the bucket [lockbox] when it is given no name or the
    empty one; it returns the database of that name, which afterwards
    exists, empty when it is new and with its contents when it was there,
    and it leaves every other database as it was. *)
Theorem open_creates_or_keeps (bucket : option string)
    (w : LocalDatabases.World) :
  LocalDatabases.open None w = LocalDatabases.open (Some "lockbox") w
  /\ LocalDatabases.open (Some "") w = LocalDatabases.open (Some "lockbox") w
  /\ (forall b, bucket = Some b -> b ≠ "" ->
      fst (LocalDatabases.open bucket w) = b)
  /\ LocalDatabases.indexedDB (snd (LocalDatabases.open bucket w))
       !! fst (LocalDatabases.open bucket w)
     = Some (default localdatabase.blank
               (LocalDatabases.indexedDB w
                  !! fst (LocalDatabases.open bucket w)))
  /\ (forall other, other ≠ fst (LocalDatabases.open bucket w) ->
      LocalDatabases.indexedDB (snd (LocalDatabases.open bucket w)) !! other
      = LocalDatabases.indexedDB w !! other).
Proof.
  split; [reflexivity|]. split; [reflexivity|]. split; [|split].
  - intros b -> Hne. unfold LocalDatabases.open, LocalDatabases.bucketName.
    simpl. by rewrite bool_decide_eq_false_2.
  - apply open_indexedDB_same.
  - intros other Hne. by apply open_indexedDB_other.
Qed.

Lemma open_creates_or_keeps_witness :
  fst (LocalDatabases.open (Some "tests") world0) = "tests"
  /\ LocalDatabases.indexedDB (snd (LocalDatabases.open (Some "tests") world0))
       !! "kept"
     = LocalDatabases.indexedDB world0 !! "kept".
Proof.
  split.
  - apply (proj1 (proj2 (proj2
             (open_creates_or_keeps (Some "tests") world0))) "tests").
    + reflexivity.
    + discriminate.
  - apply (proj2 (proj2 (proj2 (proj2
             (open_creates_or_keeps (Some "tests") world0)))) "kept").
    vm_compute. discriminate.
Defined.

(** X7: after [startup], whatever buckets are opened, [teardown] deletes
    the database of each of them and no other: a database that was not
    opened since [startup] is as it was before, also when it had been
    remembered before that [startup]. *)
Theorem teardown_deletes_opened (buckets : list (option string))
    (w : LocalDatabases.World) :
  let after :=
    LocalDatabases.teardown
      (LocalDatabases.openAll buckets (LocalDatabases.startup w)) in
  (forall db, db ∈ map LocalDatabases.bucketName buckets ->
     LocalDatabases.indexedDB after !! db = None)
  /\ (forall db, db ∉ map LocalDatabases.bucketName buckets ->
      LocalDatabases.indexedDB after !! db
      = LocalDatabases.indexedDB w !! db).
Proof.
  intros after. subst after. unfold LocalDatabases.teardown.
  rewrite openAll_DATABASES. simpl.
  split; intros db Hdb; rewrite deleteAll_lookup.
  - by rewrite bool_decide_eq_true_2.
  - rewrite bool_decide_eq_false_2 by done.
    by rewrite openAll_indexedDB_other.
Qed.

Lemma teardown_deletes_opened_witness :
  LocalDatabases.indexedDB
    (LocalDatabases.teardown
       (LocalDatabases.openAll [None; Some "tests"]
          (LocalDatabases.startup world0))) !! "lockbox" = None
  /\ LocalDatabases.indexedDB
       (LocalDatabases.teardown
          (LocalDatabases.openAll [None; Some "tests"]
             (LocalDatabases.startup world0))) !! "kept"
     = LocalDatabases.indexedDB world0 !! "kept".
Proof.
  split.
  - apply (proj1 (teardown_deletes_opened [None; Some "tests"] world0)).
    apply list_elem_of_here.
  - apply (proj2 (teardown_deletes_opened [None; Some "tests"] world0)).
    intros H. apply list_elem_of_In in H. vm_compute in H.
    intuition discriminate.
Defined.

(** X8: without [startup] nothing is remembered: [teardown] changes
    nothing, and every opened database is still there after it. *)
Theorem teardown_without_startup (buckets : list (option string))
    (w : LocalDatabases.World) :
  LocalDatabases.DATABASES w = None ->
  LocalDatabases.teardown (LocalDatabases.openAll buckets w)
  = LocalDatabases.openAll buckets w
  /\ (forall db, db ∈ map LocalDatabases.bucketName buckets ->
      is_Some (LocalDatabases.indexedDB
                 (LocalDatabases.teardown (LocalDatabases.openAll buckets w))
                 !! db)).
Proof.
  intros Hunset.
  assert (LocalDatabases.teardown (LocalDatabases.openAll buckets w)
          = LocalDatabases.openAll buckets w) as Hsame.
  { unfold LocalDatabases.teardown. rewrite openAll_DATABASES, Hunset. done. }
  split; [exact Hsame|].
  intros db Hdb. rewrite Hsame. by apply openAll_indexedDB_opened.
Qed.

Lemma teardown_without_startup_witness :
  LocalDatabases.teardown (LocalDatabases.openAll [None; Some "tests"] world0)
  = LocalDatabases.openAll [None; Some "tests"] world0.
Proof.
  apply (teardown_without_startup [None; Some "tests"] world0). reflexivity.
Defined.

(** ** Helpers of the data store tests *)

(** X9: [checkList] passes exactly when the stored map and the cached
    map are equal: with sizes equal, agreeing on the keys of [cached]
    leaves no room for another key in [stored]. *)
Theorem checkList_iff_equal (stored cached : gmap string Item) :
  checkList stored cached = true <-> stored = cached.
Proof.
  unfold checkList. rewrite andb_true_iff, bool_decide_eq_true, forallb_forall.
  split; [|intros ->; split; [done|]; intros i _; by apply bool_decide_eq_true_2].
  intros [Hsize Hkeys].
  assert (forall i, is_Some (cached !! i) -> stored !! i = cached !! i) as Hagree.
  { intros i [x Hx].
    assert (In i (map fst (map_to_list cached))) as Hin.
    { apply (proj1 (list_elem_of_In _ _)).
      apply (list_elem_of_fmap_2' fst _ (i, x)); [|done].
      by apply elem_of_map_to_list. }
    apply Hkeys in Hin. by apply bool_decide_eq_true in Hin. }
  assert (dom cached = dom stored) as Hdom.
  { apply set_subseteq_size_eq.
    - intros i Hi. apply elem_of_dom in Hi. apply elem_of_dom.
      by rewrite Hagree.
    - rewrite !size_dom. lia. }
  apply map_eq. intros i.
  destruct (cached !! i) as [x|] eqn:Hc.
  - rewrite <- Hc. apply Hagree. rewrite Hc. by eexists.
  - apply not_elem_of_dom. rewrite <- Hdom. by apply not_elem_of_dom.
Qed.

(** ** Preparing, initializing and resetting *)

Section Lifecycle.

Import DataStore localdatabase.


Lemma prepare_returns (env : Env) (ds : DataStore.t) :
  prepare env ds = (Return tt, snd (prepare env ds))
  /\ ldb (snd (prepare env ds)) = true
  /\ database (snd (prepare env ds)) = database ds
  /\ metrics (snd (prepare env ds)) = metrics ds.
Proof.
  unfold prepare, ret. destruct (ldb ds) eqn:H; simpl; by rewrite ?H.
Qed.

Lemma initialized_truthy (ds : DataStore.t) :
  initialized ds = ItemKeyStore.truthy (ItemKeyStore.encrypted (keystore ds)).
Proof. reflexivity. Qed.

Lemma locked_iff (ds : DataStore.t) :
  locked ds = false <-> is_Some (ItemKeyStore.masterKey (keystore ds)).
Proof.
  unfold locked. rewrite negb_false_iff, bool_decide_eq_true. done.
Qed.

Lemma persisted_unlocked (ds : DataStore.t) :
  persisted ds -> initialized ds = true /\ locked ds = false.
Proof.
  intros (_ & (m & c & Hm & He & _) & _). split.
  - unfold initialized. by rewrite He.
  - apply locked_iff. rewrite Hm. by eexists.
Qed.

Lemma initialize_fresh_returns (env : Env) (opts : option Options)
    (ds : DataStore.t) :
  initialized (snd (prepare env ds)) = false ->
  fst (initialize env opts ds) = Return tt.
Proof.
  intros Hfresh.
  destruct (prepare_returns env ds) as (Hret & Hopen & _).
  unfold initialized in Hfresh.
  unfold initialize, bind. rewrite Hret.
  unfold gets. rewrite Hfresh. simpl.
  unfold self_ldb, set_database. simpl. by rewrite Hopen.
Qed.

End Lifecycle.



(** X11: on a store that has no persisted keyring once prepared,
    [initialize] succeeds: the store is then initialized and unlocked
    under the key of the given password (of the empty password when none
    is given), with the given or else a random salt, the given or else
    8192 iterations and no item key; the saved keyring is the row of the
    empty group in [keystores], the [items] table and the metrics are as
    before, and any further [initialize] fails with [INITIALIZED]. *)
Theorem initialize_fresh (env : Env) (opts : option DataStore.Options)
    (ds : DataStore.t) :
  DataStore.initialized (snd (DataStore.prepare env ds)) = false ->
  exists ds',
    DataStore.initialize env opts ds = (Return tt, ds')
    /\ DataStore.initialized ds' = true
    /\ DataStore.locked ds' = false
    /\ persisted ds'
    /\ ItemKeyStore.masterKey (DataStore.keystore ds')
       = Some (passwordToKey (DataStore.password (orElse opts DataStore.noOptions)))
    /\ ItemKeyStore.salt (DataStore.keystore ds')
       = orElse (DataStore.opt_salt (orElse opts DataStore.noOptions))
           (env_salt env)
    /\ ItemKeyStore.iterations (DataStore.keystore ds')
       = orElse (DataStore.opt_iterations (orElse opts DataStore.noOptions))
           8192%N
    /\ ItemKeyStore.keys (DataStore.keystore ds') = ∅
    /\ localdatabase.items (DataStore.database ds')
       = localdatabase.items (DataStore.database ds)
    /\ DataStore.metrics ds' = DataStore.metrics ds
    /\ (forall env' opts',
          DataStore.initialize env' opts' ds'
          = (Throw (DataStoreError "already initialized" INITIALIZED), ds')).
Proof.
  intros Hfresh.
  destruct (prepare_returns env ds) as (Hret & Hopen & Hdb & Hmetrics).
  unfold DataStore.initialized in Hfresh.
  eexists. split.
  { unfold DataStore.initialize, DataStore.bind. rewrite Hret.
    unfold DataStore.gets. rewrite Hfresh. simpl.
    unfold DataStore.self_ldb, DataStore.set_database. simpl. rewrite Hopen.
    simpl. reflexivity. }
  assert (passwordToKey
            (Some (orElse (DataStore.password (orElse opts DataStore.noOptions)) []))
          = passwordToKey (DataStore.password (orElse opts DataStore.noOptions)))
    as Hkey.
  { unfold passwordToKey. simpl.
    by destruct (DataStore.password (orElse opts DataStore.noOptions)). }
  split; [reflexivity|]. split; [reflexivity|]. split.
  { split; [reflexivity|]. split; [|split; [reflexivity|]].
    - eexists _, _. simpl. split; [reflexivity|]. split; [reflexivity|].
      split; reflexivity.
    - simpl. by rewrite lookup_insert_eq. }
  split; [simpl; by rewrite Hkey|].
  split; [reflexivity|]. split; [reflexivity|]. split; [reflexivity|].
  split; [simpl; by rewrite Hdb|]. split; [exact Hmetrics|].
  intros env' opts'. by apply initialize_persisted.
Qed.

Lemma initialize_fresh_witness :
  exists ds',
    DataStore.initialize env0 None fresh_store = (Return tt, ds')
    /\ DataStore.initialized ds' = true
    /\ DataStore.locked ds' = false
    /\ ItemKeyStore.masterKey (DataStore.keystore ds')
       = Some (passwordToKey None).
Proof.
  destruct (initialize_fresh env0 None fresh_store) as (ds' & H1 & H2 & H3 & _ & H5 & _).
  - vm_compute. reflexivity.
  - exists ds'. repeat split; assumption.
Defined.

(** X12: [reset] does nothing to a store that is not initialized; on an
    initialized store whose database was never opened it throws before
    deleting anything; otherwise it deletes the bucket, closes the
    database and forgets keys, master key and persisted keyring, after
    which every data operation fails with [NOT_INITIALIZED] and
    [initialize] succeeds again. *)
Theorem reset_outcomes (ds : DataStore.t) :
  (DataStore.initialized ds = false -> DataStore.reset ds = (Return tt, ds))
  /\ (DataStore.initialized ds = true -> DataStore.ldb ds = false ->
      DataStore.reset ds
      = (Throw (TypeError "Cannot read properties of undefined"), ds))
  /\ (DataStore.initialized ds = true -> DataStore.ldb ds = true ->
      exists ds',
        DataStore.reset ds = (Return tt, ds')
        /\ DataStore.database ds' = localdatabase.blank
        /\ DataStore.ldb ds' = false
        /\ DataStore.initialized ds' = false
        /\ DataStore.locked ds' = true
        /\ ItemKeyStore.keys (DataStore.keystore ds') = ∅
        /\ DataStore.metrics ds' = DataStore.metrics ds
        /\ (forall env op,
              DataStore.run env op ds'
              = (Throw (DataStoreError "data is not initialized"
                          NOT_INITIALIZED), ds'))
        /\ (forall env opts,
              fst (DataStore.initialize env opts ds') = Return tt)).
Proof.
  split; [|split].
  - intros H. unfold DataStore.reset. by rewrite H.
  - intros Hi Hl. unfold DataStore.reset, DataStore.bind, DataStore.self_ldb.
    by rewrite Hi, Hl.
  - intros Hi Hl. eexists. split.
    { unfold DataStore.reset, DataStore.bind, DataStore.self_ldb.
      rewrite Hi, Hl. simpl. reflexivity. }
    do 6 (split; [reflexivity|]). split.
    + intros env op. by apply run_gate, checkState_not_initialized.
    + intros env opts. by apply initialize_fresh_returns.
Qed.

Lemma reset_outcomes_witness :
  DataStore.reset fresh_store = (Return tt, fresh_store)
  /\ DataStore.reset keys_only_store
     = (Throw (TypeError "Cannot read properties of undefined"),
        keys_only_store)
  /\ exists ds', DataStore.reset populated_store = (Return tt, ds')
                 /\ DataStore.database ds' = localdatabase.blank.
Proof.
  split; [|split].
  - apply (reset_outcomes fresh_store). vm_compute. reflexivity.
  - apply (reset_outcomes keys_only_store); vm_compute; reflexivity.
  - destruct (proj2 (proj2 (reset_outcomes populated_store)))
      as (ds' & Hreset & Hblank & _).
    + vm_compute. reflexivity.
    + vm_compute. reflexivity.
    + exists ds'. split; assumption.
Defined.

(** ** Reading items *)

Section Reading.

Import localdatabase.

Lemma decryptAll_state (all : list (string * ItemRecord)) (ds : DataStore.t) :
  snd (DataStore.decryptAll all ds) = ds.
Proof.
  induction all as [|[k i] all IH]; simpl; [done|].
  unfold DataStore.bind, DataStore.decrypt.
  destruct (ItemKeyStore.decrypt (rec_id i) (rec_encrypted i) (DataStore.keystore ds));
    [|done].
  destruct (DataStore.decryptAll all ds) as [[rest|e] ds1] eqn:Hrest; simpl in *;
    by subst.
Qed.

Lemma decryptAll_Return (all : list (string * ItemRecord)) (ds : DataStore.t)
    (pairs : list (string * Item)) :
  fst (DataStore.decryptAll all ds) = Return pairs ->
  Forall2 (listed ds) all pairs.
Proof.
  revert pairs. induction all as [|[k i] all IH]; intros pairs; simpl.
  - intros H. injection H as <-. constructor.
  - unfold DataStore.bind, DataStore.decrypt.
    destruct (ItemKeyStore.decrypt (rec_id i) (rec_encrypted i)
                (DataStore.keystore ds)) as [item|e] eqn:Hdec; [|discriminate].
    destruct (DataStore.decryptAll all ds) as [[rest|e] ds1] eqn:Hrest;
      [|discriminate].
    simpl. intros H. injection H as <-.
    constructor; [by split | by apply IH].
Qed.

Lemma decryptAll_all (all : list (string * ItemRecord)) (ds : DataStore.t) :
  Forall (fun row => exists item,
            ItemKeyStore.decrypt (rec_id row.2) (rec_encrypted row.2)
              (DataStore.keystore ds) = Return item) all ->
  exists pairs, DataStore.decryptAll all ds = (Return pairs, ds).
Proof.
  induction 1 as [|[k i] all [item Hdec] _ [rest IH]]; simpl.
  - by eexists.
  - unfold DataStore.bind, DataStore.decrypt. simpl in Hdec. rewrite Hdec, IH. by eexists.
Qed.

Lemma decryptAll_Throw (all : list (string * ItemRecord)) (ds : DataStore.t)
    (row : string * ItemRecord) (e : Exception) :
  row ∈ all ->
  ItemKeyStore.decrypt (rec_id row.2) (rec_encrypted row.2) (DataStore.keystore ds)
  = Throw e ->
  exists e', DataStore.decryptAll all ds = (Throw e', ds).
Proof.
  intros Hin Hdec. induction all as [|[k i] all IH]; [by apply elem_of_nil in Hin|].
  simpl. unfold DataStore.bind, DataStore.decrypt.
  destruct (ItemKeyStore.decrypt (rec_id i) (rec_encrypted i) (DataStore.keystore ds))
    as [item|e0] eqn:Hhead; [|by eexists].
  apply elem_of_cons in Hin as [->|Hin]; [simpl in Hdec; congruence|].
  destruct (IH Hin) as [e' ->]. by eexists.
Qed.

Lemma listed_keys (ds : DataStore.t) (all : list (string * ItemRecord))
    (pairs : list (string * Item)) :
  Forall2 (listed ds) all pairs ->
  (forall row, row ∈ all -> rec_id row.2 = row.1) ->
  pairs.*1 = all.*1.
Proof.
  induction 1 as [|row pair all pairs [Hk _] _ IH]; intros Hkeyed; [done|].
  simpl. rewrite Hk, Hkeyed by left. f_equal. apply IH.
  intros r Hr. apply Hkeyed. by right.
Qed.

Lemma listed_elem (ds : DataStore.t) (all : list (string * ItemRecord))
    (pairs : list (string * Item)) (key : string) (row : ItemRecord) :
  Forall2 (listed ds) all pairs -> (key, row) ∈ all -> rec_id row = key ->
  exists item,
    (key, item) ∈ pairs
    /\ ItemKeyStore.decrypt key (rec_encrypted row) (DataStore.keystore ds) = Return item.
Proof.
  intros Hall Hin Hkey.
  induction Hall as [|r [k item] all pairs [Hk Hdec] _ IH];
    [by apply elem_of_nil in Hin|].
  apply elem_of_cons in Hin as [<-|Hin].
  - simpl in *. exists item. rewrite Hkey in Hk, Hdec. subst k.
    split; [left | done].
  - destruct (IH Hin) as (it & Hit & Hd). exists it. split; [by right | done].
Qed.

Lemma get_row (ds : DataStore.t) (key : string) :
  DataStore.initialized ds = true -> DataStore.locked ds = false -> DataStore.ldb ds = true ->
  DataStore.get key ds
  = (match items (DataStore.database ds) !! key with
     | Some row =>
         match ItemKeyStore.decrypt key (rec_encrypted row) (DataStore.keystore ds) with
         | Return item => Return (Some item)
         | Throw e => Throw e
         end
     | None => Return None
     end, ds).
Proof.
  intros Hi Hu Ho. unfold DataStore.get, DataStore.bind.
  rewrite checkState_unlocked, self_ldb_open by done.
  destruct (items (DataStore.database ds) !! key) as [row|]; [|done].
  unfold DataStore.decrypt. by destruct (ItemKeyStore.decrypt _ _ _).
Qed.

End Reading.

(** X13: [get] and [list] never change the store, whatever they return.
    On an unlocked store with its database open, [list] returns, for
    every id, what [get] returns for it; it succeeds when every row
    decrypts, and throws as soon as one row does not. *)
Theorem list_collects_get (ds : DataStore.t) :
  (forall key, snd (DataStore.get key ds) = ds)
  /\ snd (DataStore.list ds) = ds
  /\ (DataStore.initialized ds = true -> DataStore.locked ds = false ->
      DataStore.ldb ds = true -> rows_keyed (DataStore.database ds) ->
      (forall listing,
         fst (DataStore.list ds) = Return listing ->
         forall key, DataStore.get key ds = (Return (listing !! key), ds))
      /\ ((forall key row,
             localdatabase.items (DataStore.database ds) !! key = Some row ->
             exists item,
               ItemKeyStore.decrypt key (localdatabase.rec_encrypted row)
                 (DataStore.keystore ds) = Return item) ->
          exists listing, DataStore.list ds = (Return listing, ds))
      /\ (forall key row e,
            localdatabase.items (DataStore.database ds) !! key = Some row ->
            ItemKeyStore.decrypt key (localdatabase.rec_encrypted row)
              (DataStore.keystore ds) = Throw e ->
            exists e', DataStore.list ds = (Throw e', ds))).
Proof.
  split; [|split].
  - intros key. unfold DataStore.get, DataStore.bind, DataStore.checkState,
      DataStore.self_ldb, DataStore.throw, DataStore.ret, DataStore.decrypt.
    destruct (DataStore.initialized ds); simpl; [|done].
    destruct (DataStore.locked ds); simpl; [done|].
    destruct (DataStore.ldb ds); simpl; [|done].
    destruct (localdatabase.items (DataStore.database ds) !! key); [|done].
    by destruct (ItemKeyStore.decrypt _ _ _).
  - unfold DataStore.list, DataStore.bind, DataStore.checkState,
      DataStore.self_ldb, DataStore.throw, DataStore.ret.
    destruct (DataStore.initialized ds); simpl; [|done].
    destruct (DataStore.locked ds); simpl; [done|].
    destruct (DataStore.ldb ds); simpl; [|done].
    pose proof (decryptAll_state
                  (map_to_list (localdatabase.items (DataStore.database ds))) ds)
      as Hstate.
    by destruct (DataStore.decryptAll _ ds) as [[?|?] ?].
  - intros Hi Hu Ho Hkeyed.
    assert (forall row : string * localdatabase.ItemRecord,
              row ∈ map_to_list (localdatabase.items (DataStore.database ds)) ->
              localdatabase.rec_id row.2 = row.1) as Hrows.
    { intros [k r] Hin. apply elem_of_map_to_list in Hin. by apply Hkeyed. }
    assert (DataStore.list ds
            = (match DataStore.decryptAll
                       (map_to_list (localdatabase.items (DataStore.database ds)))
                       ds with
               | (Return all, _) => Return (list_to_map all)
               | (Throw e, _) => Throw e
               end, ds)) as Hlist.
    { unfold DataStore.list, DataStore.bind.
      rewrite checkState_unlocked, self_ldb_open by done.
      pose proof (decryptAll_state
                    (map_to_list (localdatabase.items (DataStore.database ds))) ds)
        as Hstate.
      destruct (DataStore.decryptAll _ ds) as [[?|?] ?]; simpl in Hstate;
        by subst. }
    split; [|split].
    + intros listing Hlisting key. rewrite Hlist in Hlisting. simpl in Hlisting.
      destruct (DataStore.decryptAll _ ds) as [[all|e] ds1] eqn:Hall;
        [|discriminate].
      injection Hlisting as <-.
      assert (Forall2 (listed ds)
                (map_to_list (localdatabase.items (DataStore.database ds))) all)
        as Hlisted by (apply decryptAll_Return; by rewrite Hall).
      clear Hall. rename Hlisted into Hall.
      pose proof (listed_keys _ _ _ Hall Hrows) as Hfst.
      rewrite get_row by done.
      destruct (localdatabase.items (DataStore.database ds) !! key)
        as [row|] eqn:Hrow.
      * destruct (listed_elem ds _ _ key row Hall) as (item & Hin & Hdec).
        { by apply elem_of_map_to_list. }
        { by apply Hkeyed. }
        rewrite Hdec. f_equal. f_equal. symmetry.
        apply elem_of_list_to_map; [|done].
        rewrite Hfst. apply NoDup_fst_map_to_list.
      * f_equal. f_equal. symmetry. apply not_elem_of_list_to_map.
        rewrite Hfst. intros Hin.
        apply list_elem_of_fmap in Hin as ([k r] & -> & Hin).
        apply elem_of_map_to_list in Hin. simpl in Hrow. congruence.
    + intros Hdecrypts. rewrite Hlist.
      destruct (decryptAll_all
                  (map_to_list (localdatabase.items (DataStore.database ds))) ds)
        as [pairs Hpairs].
      { apply Forall_forall. intros [k r] Hin.
        rewrite (Hrows _ Hin). simpl.
        apply elem_of_map_to_list in Hin. by eapply Hdecrypts. }
      rewrite Hpairs. by eexists.
    + intros key row e Hrow Hdec. rewrite Hlist.
      destruct (decryptAll_Throw
                  (map_to_list (localdatabase.items (DataStore.database ds)))
                  ds (key, row) e) as [e' He'].
      { by apply elem_of_map_to_list. }
      { simpl. by rewrite (Hkeyed _ _ Hrow). }
      rewrite He'. by eexists.
Qed.

Lemma populated_store_items :
  localdatabase.items (DataStore.database populated_store)
  = {["d50fd808-8c0f-47f8-99bc-896750a2cc0e" := stored_row]}.
Proof. vm_compute. reflexivity. Qed.

Lemma populated_store_rows_keyed :
  rows_keyed (DataStore.database populated_store).
Proof.
  intros key row. rewrite populated_store_items.
  intros [<- <-]%lookup_singleton_Some. reflexivity.
Qed.

Lemma list_collects_get_witness :
  exists listing,
    DataStore.list populated_store = (Return listing, populated_store).
Proof.
  apply (proj1 (proj2 (proj2 (proj2 (list_collects_get populated_store))
           ltac:(vm_compute; reflexivity) ltac:(vm_compute; reflexivity)
           ltac:(vm_compute; reflexivity) populated_store_rows_keyed))).
  intros key row. rewrite populated_store_items.
  intros [<- <-]%lookup_singleton_Some.
  exists stored_something. vm_compute. reflexivity.
Defined.

(** ** Adding an item *)

Section Adding.

Import localdatabase.

Lemma keystore_add_lookup (env : Env) (key : string) (ks : ItemKeyStore.t) :
  ItemKeyStore.keys (snd (ItemKeyStore.add env key ks)) !! key
  = Some (fst (ItemKeyStore.add env key ks)).
Proof.
  unfold ItemKeyStore.add.
  destruct (ItemKeyStore.keys ks !! key) eqn:H; simpl; [done|].
  by rewrite lookup_insert_eq.
Qed.

Lemma keystore_add_other (env : Env) (key other : string)
    (ks : ItemKeyStore.t) :
  other ≠ key ->
  ItemKeyStore.keys (snd (ItemKeyStore.add env key ks)) !! other
  = ItemKeyStore.keys ks !! other.
Proof.
  intros Hne. unfold ItemKeyStore.add.
  destruct (ItemKeyStore.keys ks !! key); simpl; [done|].
  by rewrite lookup_insert_ne.
Qed.

Lemma keystore_add_fields (env : Env) (key : string) (ks : ItemKeyStore.t) :
  let ks' := snd (ItemKeyStore.add env key ks) in
  ItemKeyStore.group ks' = ItemKeyStore.group ks
  /\ ItemKeyStore.salt ks' = ItemKeyStore.salt ks
  /\ ItemKeyStore.iterations ks' = ItemKeyStore.iterations ks
  /\ ItemKeyStore.encrypted ks' = ItemKeyStore.encrypted ks
  /\ ItemKeyStore.masterKey ks' = ItemKeyStore.masterKey ks.
Proof.
  unfold ItemKeyStore.add. by destruct (ItemKeyStore.keys ks !! key).
Qed.

Lemma keystore_add_present (env : Env) (key : string) (ks : ItemKeyStore.t) :
  is_Some (ItemKeyStore.keys ks !! key) ->
  snd (ItemKeyStore.add env key ks) = ks.
Proof.
  intros [k Hk]. unfold ItemKeyStore.add. by rewrite Hk.
Qed.

(** What an [add] that returns has done to the store. *)
Lemma add_inv (env : Env) (input : option Item) (ds ds' : DataStore.t)
    (item : Item) :
  DataStore.add env input ds = (Return item, ds') ->
  exists given master,
    input = Some given
    /\ Items.prepare env given None = Return item
    /\ DataStore.initialized ds = true /\ DataStore.ldb ds = true
    /\ ItemKeyStore.masterKey (DataStore.keystore ds) = Some master
    /\ items (DataStore.database ds) !! keyOf item = None
    /\ let added := ItemKeyStore.add env (keyOf item) (DataStore.keystore ds) in
       let ks := snd (ItemKeyStore.save env (snd added)) in
       let row :=
         {| rec_id := keyOf item; active := DataStore.activeOf item;
            rec_encrypted :=
              {| ItemKeyStore.ct_key := fst added;
                 ItemKeyStore.ct_aad := keyOf item;
                 ItemKeyStore.ct_iv := env_iv_item env;
                 ItemKeyStore.ct_plain := ItemKeyStore.Json item |} |} in
       ItemKeyStore.masterKey ks = Some master
       /\ ItemKeyStore.keys ks = ItemKeyStore.keys (snd added)
       /\ ItemKeyStore.encrypted ks
          = Some (ItemKeyStore.wrap master (ItemKeyStore.salt ks)
                    (ItemKeyStore.iterations ks) (env_iv_keys env)
                    (ItemKeyStore.keys ks))
       /\ ItemKeyStore.group ks = ItemKeyStore.group (DataStore.keystore ds)
       /\ ds' = {| DataStore.ldb := true; DataStore.keystore := ks;
                   DataStore.sink := DataStore.sink ds;
                   DataStore.database :=
                     keystores_put (ItemKeyStore.toJSON ks)
                       (items_put row (DataStore.database ds));
                   DataStore.metrics :=
                     DataStore.metrics ds
                     ++ [DataStore.mkMetric "added" (id item) None] |}.
Proof.
  unfold DataStore.add, DataStore.bind. intros H.
  destruct (DataStore.checkState ds) as [[[]|e] ds1] eqn:Hgate; [|discriminate].
  apply checkState_inv in Hgate as (-> & Hinit & Hunlocked).
  destruct input as [given|]; [|discriminate].
  unfold DataStore.lift in H.
  destruct (Items.prepare env given None) as [prepared|e] eqn:Hprep;
    [|discriminate].
  unfold DataStore.locked in Hunlocked.
  destruct (ItemKeyStore.masterKey (DataStore.keystore ds)) as [master|]
    eqn:Hmaster;
    [|by rewrite bool_decide_eq_false_2 in Hunlocked by (by intros [? ?])].
  destruct (keystore_add_fields env (keyOf prepared) (DataStore.keystore ds))
    as (Hg & Hs & Hit & Henc & Hmk).
  unfold DataStore.encrypt, DataStore.onKeystore, ItemKeyStore.encrypt in H.
  simpl in H.
  destruct (ItemKeyStore.add env (keyOf prepared) (DataStore.keystore ds))
    as [key ks1] eqn:Hadd. simpl in *.
  unfold ItemKeyStore.save in H. rewrite Hmk, Hmaster in H. simpl in H.
  unfold DataStore.self_ldb in H. simpl in H.
  destruct (DataStore.ldb ds) eqn:Hopen; [|discriminate].
  unfold DataStore.gets in H. simpl in H.
  destruct (items (DataStore.database ds) !! keyOf prepared) eqn:Hrow;
    [discriminate|].
  unfold DataStore.set_database, DataStore.recordMetric, DataStore.ret in H.
  simpl in H.
  destruct (DataStore.sink ds (DataStore.metrics ds) _); [discriminate|].
  injection H as <- <-.
  exists given, master. cbn zeta. rewrite Hadd. simpl fst. simpl snd.
  unfold ItemKeyStore.save. rewrite Hmk, Hmaster. simpl.
  repeat split; try done.
Qed.

End Adding.

(** X14: when [add] has returned an item, [get] of its id returns that
    item; the id had no row before, no other row has changed, every other
    key of the keyring is as it was, the saved keyring is the row of its
    group in [keystores], and the sink has received one [added] call
    without fields. *)
Theorem add_then_get (env : Env) (input : option Item) (ds ds' : DataStore.t)
    (item : Item) :
  DataStore.add env input ds = (Return item, ds') ->
  DataStore.get (keyOf item) ds' = (Return (Some item), ds')
  /\ localdatabase.items (DataStore.database ds) !! keyOf item = None
  /\ (forall other, other ≠ keyOf item ->
      localdatabase.items (DataStore.database ds') !! other
      = localdatabase.items (DataStore.database ds) !! other
      /\ ItemKeyStore.get (DataStore.keystore ds') other
         = ItemKeyStore.get (DataStore.keystore ds) other)
  /\ localdatabase.keystores (DataStore.database ds')
       !! ItemKeyStore.group (DataStore.keystore ds')
     = Some (ItemKeyStore.toJSON (DataStore.keystore ds'))
  /\ DataStore.metrics ds'
     = DataStore.metrics ds ++ [DataStore.mkMetric "added" (id item) None].
Proof.
  intros H. apply add_inv in H
    as (given & master & -> & Hprep & Hinit & Hopen & Hmaster & Hnew
        & Hmk & Hkeys & Henc & Hgroup & ->).
  split; [|split; [exact Hnew|split; [|split]]].
  - rewrite get_row; simpl.
    + rewrite lookup_insert_eq. simpl.
      unfold ItemKeyStore.decrypt. simpl.
      rewrite Hkeys, keystore_add_lookup.
      by rewrite !bool_decide_eq_true_2.
    + unfold DataStore.initialized. simpl. by rewrite Henc.
    + unfold DataStore.locked. simpl. rewrite Hmk.
      by rewrite bool_decide_eq_true_2 by (by eexists).
    + done.
  - intros other Hne. simpl. split.
    + by rewrite lookup_insert_ne.
    + unfold ItemKeyStore.get. rewrite Hkeys. by apply keystore_add_other.
  - simpl. by rewrite lookup_insert_eq.
  - reflexivity.
Qed.

Lemma add_then_get_witness :
  DataStore.get (keyOf stored_something) populated_store
  = (Return (Some stored_something), populated_store).
Proof.
  apply (add_then_get env0 (Some something) unlocked_store populated_store
           stored_something).
  vm_compute. reflexivity.
Defined.

(** ** Failing writes *)

Section FailingWrites.

Import localdatabase.

Ltac run_through H :=
  unfold DataStore.bind, DataStore.checkState, DataStore.throw, DataStore.ret,
    DataStore.lift, DataStore.encrypt, DataStore.decrypt, DataStore.onKeystore,
    DataStore.self_ldb, DataStore.gets, DataStore.set_database,
    DataStore.recordMetric in H;
  simpl in H;
  repeat (case_match; simpl in *; simplify_eq);
  first [ left; eexists; reflexivity
        | right; left; split; reflexivity
        | right; right; eexists; split; [reflexivity|]; eexists; split;
          [reflexivity|eassumption] ].

Lemma add_outcome (env : Env) (input : option Item) (ds ds' : DataStore.t)
    (r : Result Item) :
  DataStore.add env input ds = (r, ds') ->
  (exists item, r = Return item)
  \/ unwritten ds ds'
  \/ (exists e, r = Throw e /\ thrown_by_sink e ds ds').
Proof.
  intros H. unfold DataStore.add in H. unfold unwritten, thrown_by_sink.
  run_through H.
Qed.

Lemma update_outcome (env : Env) (input : option Item) (ds ds' : DataStore.t)
    (r : Result Item) :
  DataStore.update env input ds = (r, ds') ->
  (exists item, r = Return item)
  \/ unwritten ds ds'
  \/ (exists e, r = Throw e /\ thrown_by_sink e ds ds').
Proof.
  intros H. unfold DataStore.update in H. unfold unwritten, thrown_by_sink.
  run_through H.
Qed.

Lemma remove_outcome (env : Env) (key : string) (ds ds' : DataStore.t)
    (r : Result (option Item)) :
  DataStore.remove env key ds = (r, ds') ->
  (exists item, r = Return item)
  \/ unwritten ds ds'
  \/ (exists e, r = Throw e /\ thrown_by_sink e ds ds').
Proof.
  intros H. unfold DataStore.remove in H. unfold unwritten, thrown_by_sink.
  run_through H.
Qed.

End FailingWrites.

(** X15: an [add], [update] or [remove] that throws has either written
    to neither table and sent nothing to the sink, or it threw what the
    sink threw on the call it had just received, which comes after the
    write.  So when the sink does not throw on its next call, as the
    default sink never does, a write that throws leaves both tables and
    the sink untouched. *)
Theorem failed_writes_unwritten_or_sink (env : Env) (ds : DataStore.t)
    (e : Exception) :
  (forall input,
     fst (DataStore.add env input ds) = Throw e ->
     unwritten ds (snd (DataStore.add env input ds))
     \/ thrown_by_sink e ds (snd (DataStore.add env input ds)))
  /\ (forall input,
        fst (DataStore.update env input ds) = Throw e ->
        unwritten ds (snd (DataStore.update env input ds))
        \/ thrown_by_sink e ds (snd (DataStore.update env input ds)))
  /\ (forall key,
        fst (DataStore.remove env key ds) = Throw e ->
        unwritten ds (snd (DataStore.remove env key ds))
        \/ thrown_by_sink e ds (snd (DataStore.remove env key ds)))
  /\ ((forall call, DataStore.sink ds (DataStore.metrics ds) call = None) ->
      (forall input,
         fst (DataStore.add env input ds) = Throw e ->
         unwritten ds (snd (DataStore.add env input ds)))
      /\ (forall input,
            fst (DataStore.update env input ds) = Throw e ->
            unwritten ds (snd (DataStore.update env input ds)))
      /\ (forall key,
            fst (DataStore.remove env key ds) = Throw e ->
            unwritten ds (snd (DataStore.remove env key ds)))).
Proof.
  assert (forall input,
            fst (DataStore.add env input ds) = Throw e ->
            unwritten ds (snd (DataStore.add env input ds))
            \/ thrown_by_sink e ds (snd (DataStore.add env input ds)))
    as Hadd.
  { intros input Hthrow.
    destruct (DataStore.add env input ds) as [r ds'] eqn:H. simpl in *.
    apply add_outcome in H as [[item ->]|[H|(e' & -> & H)]];
      [discriminate | by left | right].
    by injection Hthrow as <-. }
  assert (forall input,
            fst (DataStore.update env input ds) = Throw e ->
            unwritten ds (snd (DataStore.update env input ds))
            \/ thrown_by_sink e ds (snd (DataStore.update env input ds)))
    as Hupdate.
  { intros input Hthrow.
    destruct (DataStore.update env input ds) as [r ds'] eqn:H. simpl in *.
    apply update_outcome in H as [[item ->]|[H|(e' & -> & H)]];
      [discriminate | by left | right].
    by injection Hthrow as <-. }
  assert (forall key,
            fst (DataStore.remove env key ds) = Throw e ->
            unwritten ds (snd (DataStore.remove env key ds))
            \/ thrown_by_sink e ds (snd (DataStore.remove env key ds)))
    as Hremove.
  { intros key Hthrow.
    destruct (DataStore.remove env key ds) as [r ds'] eqn:H. simpl in *.
    apply remove_outcome in H as [[item ->]|[H|(e' & -> & H)]];
      [discriminate | by left | right].
    by injection Hthrow as <-. }
  split; [exact Hadd|]. split; [exact Hupdate|]. split; [exact Hremove|].
  intros Hsilent.
  assert (forall ds', thrown_by_sink e ds ds' -> False) as Hnot.
  { intros ds' (call & _ & Hcall). by rewrite Hsilent in Hcall. }
  split; [|split].
  - intros input Hthrow.
    destruct (Hadd input Hthrow) as [H|H]; [exact H | by apply Hnot in H].
  - intros input Hthrow.
    destruct (Hupdate input Hthrow) as [H|H]; [exact H | by apply Hnot in H].
  - intros key Hthrow.
    destruct (Hremove key Hthrow) as [H|H]; [exact H | by apply Hnot in H].
Qed.

Lemma failed_writes_unwritten_or_sink_witness :
  unwritten populated_store
    (snd (DataStore.add env0 (Some something) populated_store))
  /\ (unwritten throwing_store
        (snd (DataStore.add env0 (Some something) throwing_store))
      \/ thrown_by_sink (Error "sink failed") throwing_store
           (snd (DataStore.add env0 (Some something) throwing_store))).
Proof.
  split.
  - apply (proj1 (proj2 (proj2 (proj2
             (failed_writes_unwritten_or_sink env0 populated_store
                (ConstraintError "Key already exists in the object store"))))
             (fun call => eq_refl))).
    vm_compute. reflexivity.
  - apply (proj1 (failed_writes_unwritten_or_sink env0 throwing_store
                    (Error "sink failed"))).
    vm_compute. reflexivity.
Defined.

(** With a sink that throws, [add] throws what the sink threw after the
    item and the keyring were written. *)
Example add_throwing_sink_has_written :
  fst (DataStore.add env0 (Some something) throwing_store)
  = Throw (Error "sink failed")
  /\ fst (DataStore.get (keyOf stored_something)
            (snd (DataStore.add env0 (Some something) throwing_store)))
     = Return (Some stored_something).
Proof. split; vm_compute; reflexivity. Qed.

(** ** Updating an item *)

Section Updating.

Import localdatabase.

Lemma prepare_previous (env : Env) (given orig item : Item) :
  Items.prepare env given (Some orig) = Return item ->
  id given = id orig /\ id item = id orig /\ created item = created orig
  /\ modified item = Some (env_now env) /\ entry item = entry given.
Proof.
  unfold Items.prepare.
  destruct (negb (Items.valid given)); [discriminate|].
  case_bool_decide as Hid; [discriminate|].
  intros H. injection H as <-. simpl.
  repeat split; done.
Qed.

Lemma decrypt_has_key (key : string) (c : ItemKeyStore.Ciphertext)
    (ks : ItemKeyStore.t) (item : Item) :
  ItemKeyStore.decrypt key c ks = Return item ->
  ItemKeyStore.keys ks !! key = Some (ItemKeyStore.ct_key c)
  /\ ItemKeyStore.ct_aad c = key
  /\ ItemKeyStore.ct_plain c = ItemKeyStore.Json item.
Proof.
  unfold ItemKeyStore.decrypt.
  destruct (ItemKeyStore.keys ks !! key) as [k|]; [|discriminate].
  case_bool_decide as Hk; [|discriminate].
  case_bool_decide as Ha; [|discriminate]. simpl.
  destruct (ItemKeyStore.ct_plain c); [|discriminate].
  intros H. injection H as ->. by subst.
Qed.

(** What an [update] that returns has done to the store. *)
Lemma update_inv (env : Env) (input : option Item) (ds ds' : DataStore.t)
    (item : Item) :
  DataStore.update env input ds = (Return item, ds') ->
  exists given key row orig,
    input = Some given /\ id given = Some key /\ key ≠ ""
    /\ DataStore.initialized ds = true /\ DataStore.locked ds = false
    /\ DataStore.ldb ds = true
    /\ items (DataStore.database ds) !! key = Some row
    /\ ItemKeyStore.decrypt key (rec_encrypted row) (DataStore.keystore ds)
       = Return orig
    /\ Items.prepare env given (Some orig) = Return item
    /\ ds' = {| DataStore.ldb := true;
                DataStore.keystore :=
                  snd (ItemKeyStore.add env (keyOf item) (DataStore.keystore ds));
                DataStore.sink := DataStore.sink ds;
                DataStore.database :=
                  items_put
                    {| rec_id := key; active := DataStore.activeOf item;
                       rec_encrypted :=
                         {| ItemKeyStore.ct_key :=
                              fst (ItemKeyStore.add env (keyOf item)
                                     (DataStore.keystore ds));
                            ItemKeyStore.ct_aad := keyOf item;
                            ItemKeyStore.ct_iv := env_iv_item env;
                            ItemKeyStore.ct_plain := ItemKeyStore.Json item |} |}
                    (DataStore.database ds);
                DataStore.metrics :=
                  DataStore.metrics ds
                  ++ [DataStore.mkMetric "updated" (id item)
                        (Some (fields (determineItemChanges (Some orig)
                                         (Some item))))] |}.
Proof.
  unfold DataStore.update, DataStore.bind. intros H.
  destruct (DataStore.checkState ds) as [[[]|e] ds1] eqn:Hgate; [|discriminate].
  apply checkState_inv in Hgate as (-> & Hinit & Hunlocked).
  destruct (DataStore.lacksId input) eqn:Hlacks; [discriminate|].
  destruct input as [given|]; [|discriminate]. simpl in Hlacks.
  destruct (id given) as [key|] eqn:Hid; [|discriminate].
  apply bool_decide_eq_false in Hlacks.
  unfold keyOf in H at 1 2 3. simpl in H. rewrite Hid in H. simpl in H.
  unfold DataStore.self_ldb in H.
  destruct (DataStore.ldb ds) eqn:Hopen; [|discriminate].
  destruct (items (DataStore.database ds) !! key) as [row|] eqn:Hrow;
    [|discriminate].
  unfold DataStore.decrypt in H.
  destruct (ItemKeyStore.decrypt key (rec_encrypted row) (DataStore.keystore ds))
    as [orig|e] eqn:Hdec; [|discriminate].
  unfold DataStore.lift in H.
  destruct (Items.prepare env given (Some orig)) as [prepared|e] eqn:Hprep;
    [|discriminate].
  unfold DataStore.encrypt, DataStore.onKeystore, ItemKeyStore.encrypt in H.
  simpl in H.
  destruct (ItemKeyStore.add env (keyOf prepared) (DataStore.keystore ds))
    as [k ks1] eqn:Hadd. simpl in H. rewrite Hopen in H.
  unfold DataStore.set_database, DataStore.recordMetric, DataStore.ret in H.
  simpl in H.
  destruct (DataStore.sink ds (DataStore.metrics ds) _); [discriminate|].
  injection H as <- <-.
  exists given, key, row, orig. rewrite Hadd. simpl.
  repeat split; try done.
Qed.

Lemma update_frame (env : Env) (input : option Item) (ds ds' : DataStore.t)
    (r : Result Item) :
  DataStore.update env input ds = (r, ds') ->
  keystores (DataStore.database ds') = keystores (DataStore.database ds)
  /\ DataStore.ldb ds' = DataStore.ldb ds
  /\ (forall other, other ≠ keyOf (orElse input emptyObject) ->
      items (DataStore.database ds') !! other
      = items (DataStore.database ds) !! other).
Proof.
  intros H. unfold DataStore.update in H.
  unfold DataStore.bind, DataStore.checkState, DataStore.throw, DataStore.ret,
    DataStore.lift, DataStore.encrypt, DataStore.decrypt, DataStore.onKeystore,
    DataStore.self_ldb, DataStore.gets, DataStore.set_database,
    DataStore.recordMetric in H.
  simpl in H.
  repeat (case_match; simpl in *; simplify_eq);
    (split; [reflexivity|]; split; [reflexivity|]; try done);
    intros other Hne; by rewrite lookup_insert_ne.
Qed.

End Updating.

(** X16: whatever [update] is given and however it ends, it leaves the
    [keystores] table alone, does not open or close the database, and
    changes no row of [items] other than the one under the id of its
    argument. *)
Theorem update_writes_one_row (env : Env) (input : option Item)
    (ds : DataStore.t) :
  let ds' := snd (DataStore.update env input ds) in
  localdatabase.keystores (DataStore.database ds')
  = localdatabase.keystores (DataStore.database ds)
  /\ DataStore.ldb ds' = DataStore.ldb ds
  /\ (forall other, other ≠ keyOf (orElse input emptyObject) ->
      localdatabase.items (DataStore.database ds') !! other
      = localdatabase.items (DataStore.database ds) !! other).
Proof.
  intros ds'. subst ds'.
  destruct (DataStore.update env input ds) as [r ds'] eqn:H.
  by apply update_frame in H.
Qed.

Lemma update_writes_one_row_witness :
  localdatabase.items
    (DataStore.database
       (snd (DataStore.update env1 (Some new_password_item) populated_store)))
    !! absent_id
  = localdatabase.items (DataStore.database populated_store) !! absent_id.
Proof.
  apply (update_writes_one_row env1 (Some new_password_item) populated_store).
  vm_compute. discriminate.
Defined.

(** X17: when [update] has returned an item, the id had a row that
    decrypted to the previous item, and [get] of the id now returns the
    updated one; the item keeps the id and the creation time of the
    previous one and is modified now; the keyring is exactly as it was;
    and the sink has received one [updated] call whose fields are those
    [determineItemChanges] finds between the previous and the updated
    item. *)
Theorem update_then_get (env : Env) (input : option Item)
    (ds ds' : DataStore.t) (item : Item) :
  DataStore.update env input ds = (Return item, ds') ->
  exists orig,
    DataStore.get (keyOf item) ds = (Return (Some orig), ds)
    /\ DataStore.get (keyOf item) ds' = (Return (Some item), ds')
    /\ id item = id orig /\ created item = created orig
    /\ modified item = Some (env_now env)
    /\ DataStore.keystore ds' = DataStore.keystore ds
    /\ DataStore.metrics ds'
       = DataStore.metrics ds
         ++ [DataStore.mkMetric "updated" (id item)
               (Some (fields (determineItemChanges (Some orig) (Some item))))].
Proof.
  intros H. apply update_inv in H
    as (given & key & row & orig & -> & Hid & Hne & Hinit & Hunlocked & Hopen
        & Hrow & Hdec & Hprep & ->).
  destruct (prepare_previous _ _ _ _ Hprep) as (Hgo & Hio & Hcreated & Hmod & _).
  assert (keyOf item = key) as Hkey.
  { unfold keyOf. by rewrite Hio, <- Hgo, Hid. }
  destruct (decrypt_has_key _ _ _ _ Hdec) as (Hk & _ & _).
  assert (ItemKeyStore.add env key (DataStore.keystore ds)
          = (ItemKeyStore.ct_key (localdatabase.rec_encrypted row),
             DataStore.keystore ds)) as Hadd.
  { unfold ItemKeyStore.add. by rewrite Hk. }
  exists orig. rewrite Hkey, Hadd. simpl.
  split; [|split].
  - rewrite get_row by done. by rewrite Hrow, Hdec.
  - rewrite get_row by done. simpl. rewrite lookup_insert_eq. simpl.
    unfold ItemKeyStore.decrypt. simpl. rewrite Hk.
    by rewrite !bool_decide_eq_true_2.
  - done.
Qed.

Lemma update_then_get_witness :
  exists orig,
    DataStore.get "d50fd808-8c0f-47f8-99bc-896750a2cc0e" populated_store
    = (Return (Some orig), populated_store)
    /\ id (updated_password_item) = id orig.
Proof.
  destruct (update_then_get env1 (Some new_password_item) populated_store
              (snd (DataStore.update env1 (Some new_password_item)
                      populated_store))
              updated_password_item) as (orig & Hget & _ & Hid & _).
  - vm_compute. reflexivity.
  - exists orig. split; [exact Hget | exact Hid].
Defined.

(** ** Removing an item *)

(** X18: when [remove] has returned an item, that item is what [get]
    returned for the id before; no other row and no other key of the
    keyring has changed; and a further [remove] of the id returns [null]
    and changes nothing. *)
Theorem remove_once (env : Env) (key : string) (ds ds' : DataStore.t)
    (item : Item) :
  DataStore.remove env key ds = (Return (Some item), ds') ->
  DataStore.get key ds = (Return (Some item), ds)
  /\ (forall other, other ≠ key ->
      localdatabase.items (DataStore.database ds') !! other
      = localdatabase.items (DataStore.database ds) !! other
      /\ ItemKeyStore.get (DataStore.keystore ds') other
         = ItemKeyStore.get (DataStore.keystore ds) other)
  /\ (forall env', DataStore.remove env' key ds' = (Return None, ds')).
Proof.
  intros H. apply remove_inv in H
    as (record & master & Hinit & Hopen & Hrow & Hdec & Hmaster & Hds').
  simpl in Hds'. subst ds'.
  assert (DataStore.locked ds = false) as Hunlocked.
  { unfold DataStore.locked. rewrite Hmaster.
    by rewrite bool_decide_eq_true_2 by (by eexists). }
  split; [|split].
  - rewrite get_row by done. by rewrite Hrow, Hdec.
  - intros other Hne. simpl. unfold ItemKeyStore.get. simpl.
    by rewrite !lookup_delete_ne.
  - intros env'. apply remove_absent; try done.
    simpl. apply lookup_delete_eq.
Qed.

Lemma remove_once_witness :
  DataStore.get "d50fd808-8c0f-47f8-99bc-896750a2cc0e" populated_store
  = (Return (Some stored_something), populated_store).
Proof.
  apply (remove_once env1 "d50fd808-8c0f-47f8-99bc-896750a2cc0e"
           populated_store
           (snd (DataStore.remove env1 "d50fd808-8c0f-47f8-99bc-896750a2cc0e"
                   populated_store))
           stored_something).
  vm_compute. reflexivity.
Defined.

(** ** Locking, unlocking and reopening *)

Section Reopening.

Import localdatabase.

(** A cleared keyring that was in step loads back exactly under its
    master key. *)
Lemma load_cleared (ks : ItemKeyStore.t) (master : JWK.t) :
  saved ks -> ItemKeyStore.masterKey ks = Some master ->
  ItemKeyStore.load (Some master) (ItemKeyStore.clear false ks) = (Return tt, ks)
  /\ (forall other, other ≠ master ->
      ItemKeyStore.load (Some other) (ItemKeyStore.clear false ks)
      = (Throw (DataStoreError "invalid master key" INVALID_MASTER_KEY),
         ItemKeyStore.clear false ks)).
Proof.
  intros (m & c & Hm & He & Hby & Hsealed) Hmaster.
  assert (m = master) as -> by congruence.
  unfold ItemKeyStore.load, ItemKeyStore.clear, ItemKeyStore.unwrap. simpl.
  rewrite He, Hby, Hsealed. split.
  - rewrite bool_decide_eq_true_2 by done. simpl.
    destruct ks. simpl in *. by subst.
  - intros other Hne. by rewrite bool_decide_eq_false_2.
Qed.

(** A keyring made from the persisted record of one in step, and then
    loaded under the master key, is that keyring. *)
Lemma load_revived (env : Env) (ks : ItemKeyStore.t) (master : JWK.t) :
  saved ks -> ItemKeyStore.masterKey ks = Some master ->
  ItemKeyStore.load (Some master)
    (ItemKeyStore.new env (ItemKeyStore.fromJSON (ItemKeyStore.toJSON ks)))
  = (Return tt, ks).
Proof.
  intros Hsaved Hmaster.
  replace (ItemKeyStore.new env (ItemKeyStore.fromJSON (ItemKeyStore.toJSON ks)))
    with (ItemKeyStore.clear false ks); [by apply load_cleared|].
  by destruct ks.
Qed.

Lemma decryptAll_keystore (all : list (string * ItemRecord))
    (ds ds2 : DataStore.t) :
  DataStore.keystore ds2 = DataStore.keystore ds ->
  fst (DataStore.decryptAll all ds2) = fst (DataStore.decryptAll all ds).
Proof.
  intros Hks. induction all as [|[k i] all IH]; simpl; [done|].
  unfold DataStore.bind, DataStore.decrypt. rewrite Hks.
  destruct (ItemKeyStore.decrypt (rec_id i) (rec_encrypted i)
              (DataStore.keystore ds)); [|done].
  pose proof (decryptAll_state all ds) as Hs.
  pose proof (decryptAll_state all ds2) as Hs2.
  destruct (DataStore.decryptAll all ds) as [[?|?] ?],
           (DataStore.decryptAll all ds2) as [[?|?] ?];
    simpl in *; congruence.
Qed.

Lemma get_result (ds : DataStore.t) (key : string) :
  fst (DataStore.get key ds)
  = if negb (DataStore.initialized ds)
    then Throw (DataStoreError "data is not initialized" NOT_INITIALIZED)
    else if DataStore.locked ds
    then Throw (DataStoreError "datastore is locked" LOCKED)
    else if DataStore.ldb ds
    then match items (DataStore.database ds) !! key with
         | Some row =>
             match ItemKeyStore.decrypt key (rec_encrypted row)
                     (DataStore.keystore ds) with
             | Return item => Return (Some item)
             | Throw e => Throw e
             end
         | None => Return None
         end
    else Throw (TypeError "Cannot read properties of undefined").
Proof.
  unfold DataStore.get, DataStore.bind, DataStore.checkState,
    DataStore.self_ldb, DataStore.throw, DataStore.ret, DataStore.decrypt.
  destruct (DataStore.initialized ds); simpl; [|done].
  destruct (DataStore.locked ds); simpl; [done|].
  destruct (DataStore.ldb ds); simpl; [|done].
  destruct (items (DataStore.database ds) !! key); [|done].
  by destruct (ItemKeyStore.decrypt _ _ _).
Qed.

Lemma list_result (ds : DataStore.t) :
  fst (DataStore.list ds)
  = if negb (DataStore.initialized ds)
    then Throw (DataStoreError "data is not initialized" NOT_INITIALIZED)
    else if DataStore.locked ds
    then Throw (DataStoreError "datastore is locked" LOCKED)
    else if DataStore.ldb ds
    then match fst (DataStore.decryptAll
                      (map_to_list (items (DataStore.database ds))) ds) with
         | Return all => Return (list_to_map all)
         | Throw e => Throw e
         end
    else Throw (TypeError "Cannot read properties of undefined").
Proof.
  unfold DataStore.list, DataStore.bind, DataStore.checkState,
    DataStore.self_ldb, DataStore.throw, DataStore.ret.
  destruct (DataStore.initialized ds); simpl; [|done].
  destruct (DataStore.locked ds); simpl; [done|].
  destruct (DataStore.ldb ds); simpl; [|done].
  by destruct (DataStore.decryptAll _ ds) as [[?|?] ?].
Qed.

Lemma reads_same (ds ds2 : DataStore.t) :
  DataStore.keystore ds2 = DataStore.keystore ds ->
  DataStore.database ds2 = DataStore.database ds ->
  DataStore.ldb ds2 = DataStore.ldb ds ->
  (forall key, fst (DataStore.get key ds2) = fst (DataStore.get key ds))
  /\ fst (DataStore.list ds2) = fst (DataStore.list ds).
Proof.
  intros Hks Hdb Hldb. split.
  - intros key. rewrite !get_result.
    unfold DataStore.initialized, DataStore.locked.
    by rewrite Hks, Hdb, Hldb.
  - rewrite !list_result.
    unfold DataStore.initialized, DataStore.locked.
    rewrite Hks, Hdb, Hldb.
    by rewrite (decryptAll_keystore _ ds ds2 Hks).
Qed.

End Reopening.

(** X19: on a store whose keyring is in step with its saved blob,
    [lock] followed by [unlock] with the password of its master key gives
    back exactly the store there was, while [unlock] with a password of
    other octets, which any other password is when neither has an
    unpaired surrogate, fails with [INVALID_MASTER_KEY] and leaves the
    store locked and otherwise unchanged. *)
Theorem lock_unlock_restores (pwd : option JsString.t) (ds : DataStore.t) :
  saved (DataStore.keystore ds) ->
  ItemKeyStore.masterKey (DataStore.keystore ds) = Some (passwordToKey pwd) ->
  DataStore.unlock pwd (snd (DataStore.lock ds)) = (Return tt, ds)
  /\ (forall other,
        JsString.utf8 (orElse other []) ≠ JsString.utf8 (orElse pwd []) ->
        DataStore.unlock other (snd (DataStore.lock ds))
        = (Throw (DataStoreError "invalid master key" INVALID_MASTER_KEY),
           snd (DataStore.lock ds)))
  /\ (forall other,
        JsString.wellFormed (orElse pwd []) = true ->
        JsString.wellFormed (orElse other []) = true ->
        orElse other [] ≠ orElse pwd [] ->
        DataStore.unlock other (snd (DataStore.lock ds))
        = (Throw (DataStoreError "invalid master key" INVALID_MASTER_KEY),
           snd (DataStore.lock ds))).
Proof.
  intros Hsaved Hmaster.
  destruct (load_cleared _ _ Hsaved Hmaster) as [Hsame Hother].
  assert (forall other,
            JsString.utf8 (orElse other []) ≠ JsString.utf8 (orElse pwd []) ->
            DataStore.unlock other (snd (DataStore.lock ds))
            = (Throw (DataStoreError "invalid master key" INVALID_MASTER_KEY),
               snd (DataStore.lock ds))) as Hwrong.
  { intros other Hne.
    unfold DataStore.unlock, DataStore.lock, DataStore.onKeystore,
      DataStore.locked. simpl.
    rewrite Hother; [done|].
    intros Heq. by apply passwordToKey_utf8 in Heq. }
  split; [|split; [exact Hwrong|]].
  - unfold DataStore.unlock, DataStore.lock, DataStore.onKeystore,
      DataStore.locked. simpl.
    rewrite Hsame. by destruct ds.
  - intros other Hwf Hwf' Hne. apply Hwrong.
    intros Heq. by apply utf8_inj in Heq.
Qed.

Lemma lock_unlock_restores_witness :
  DataStore.unlock (Some M1) (snd (DataStore.lock populated_store))
  = (Return tt, populated_store)
  /\ DataStore.unlock None (snd (DataStore.lock populated_store))
     = (Throw (DataStoreError "invalid master key" INVALID_MASTER_KEY),
        snd (DataStore.lock populated_store)).
Proof.
  assert (saved (DataStore.keystore populated_store)) as Hsaved.
  { eexists _, _. split; [vm_compute; reflexivity|].
    split; [vm_compute; reflexivity|]. split; vm_compute; reflexivity. }
  assert (ItemKeyStore.masterKey (DataStore.keystore populated_store)
          = Some (passwordToKey (Some M1))) as Hmaster
    by (vm_compute; reflexivity).
  destruct (lock_unlock_restores (Some M1) populated_store Hsaved Hmaster)
    as (Hback & Hwrong & _).
  split; [exact Hback|]. apply Hwrong.
  intros H. vm_compute in H. discriminate.
Defined.

(** ** What every successful write keeps *)

Section Keeping.

Import localdatabase.

Lemma remove_null_inv (env : Env) (key : string) (ds ds' : DataStore.t) :
  DataStore.remove env key ds = (Return None, ds') -> ds' = ds.
Proof.
  intros H. unfold DataStore.remove in H.
  unfold DataStore.bind, DataStore.checkState, DataStore.throw, DataStore.ret,
    DataStore.decrypt, DataStore.onKeystore, DataStore.self_ldb,
    DataStore.gets, DataStore.set_database, DataStore.recordMetric in H.
  simpl in H.
  repeat (case_match; simpl in *; simplify_eq); eauto.
Qed.

Lemma rows_keyed_put (row : ItemRecord) (db : Dexie) :
  rows_keyed db -> rows_keyed (items_put row db).
Proof.
  intros Hkeyed key r. unfold items_put. simpl.
  destruct (decide (rec_id row = key)) as [<-|Hne].
  - rewrite lookup_insert_eq. by intros [= <-].
  - rewrite lookup_insert_ne by done. apply Hkeyed.
Qed.

Lemma rows_keyed_delete (key : string) (db : Dexie) :
  rows_keyed db -> rows_keyed (items_delete key db).
Proof.
  intros Hkeyed k r. unfold items_delete. simpl.
  intros [_ H]%lookup_delete_Some. by apply Hkeyed.
Qed.

Lemma rows_keyed_keystores (k : ItemKeyStore.Persisted) (db : Dexie) :
  rows_keyed db -> rows_keyed (keystores_put k db).
Proof. intros Hkeyed key r. apply Hkeyed. Qed.

End Keeping.

(** X20: every [add], [update] and [remove] that returns keeps the store
    in step: afterwards the store is still unlocked with its database
    open, the saved blob of the keyring still seals exactly the keys held
    in memory, the [keystores] table still holds that keyring under the
    empty group, and every row of [items] still sits under its own id. *)
Theorem writes_keep_in_step (env : Env) (ds : DataStore.t) :
  persisted ds -> rows_keyed (DataStore.database ds) ->
  (forall input item ds',
     DataStore.add env input ds = (Return item, ds') ->
     persisted ds' /\ rows_keyed (DataStore.database ds'))
  /\ (forall input item ds',
        DataStore.update env input ds = (Return item, ds') ->
        persisted ds' /\ rows_keyed (DataStore.database ds'))
  /\ (forall key removed ds',
        DataStore.remove env key ds = (Return removed, ds') ->
        persisted ds' /\ rows_keyed (DataStore.database ds')).
Proof.
  intros (Hopen & Hsaved & Hgroup & Hstored) Hkeyed.
  split; [|split].
  - intros input item ds' H. apply add_inv in H
      as (given & master & -> & _ & _ & _ & _ & _
          & Hmk & Hkeys & Henc & Hg & ->).
    split.
    + split; [reflexivity|]. simpl. split; [|split].
      * eexists master, _. split; [exact Hmk|]. split; [exact Henc|].
        split; reflexivity.
      * by rewrite Hg.
      * rewrite Hg, Hgroup. by rewrite lookup_insert_eq.
    + simpl. by apply rows_keyed_keystores, rows_keyed_put.
  - intros input item ds' H.
    assert (DataStore.keystore ds' = DataStore.keystore ds
            /\ localdatabase.keystores (DataStore.database ds')
               = localdatabase.keystores (DataStore.database ds)
            /\ DataStore.ldb ds' = true
            /\ rows_keyed (DataStore.database ds')) as (Hks & Htable & Ho & Hr).
    { apply update_inv in H
        as (given & key & row & orig & -> & Hid & Hne & _ & _ & _
            & Hrow & Hdec & Hprep & ->).
      destruct (prepare_previous _ _ _ _ Hprep) as (Hgo & Hio & _).
      assert (keyOf item = key) as Hkey.
      { unfold keyOf. by rewrite Hio, <- Hgo, Hid. }
      destruct (decrypt_has_key _ _ _ _ Hdec) as (Hk & _ & _).
      rewrite Hkey. simpl.
      rewrite keystore_add_present by (rewrite Hk; by eexists).
      repeat split. by apply rows_keyed_put. }
    split; [|exact Hr].
    split; [exact Ho|]. rewrite Hks, Htable. by repeat split.
  - intros key [item|] ds' H.
    + apply remove_inv in H
        as (record & master & _ & _ & _ & _ & Hmaster & Hds').
      simpl in Hds'. subst ds'. split.
      * split; [reflexivity|]. simpl. split; [|split].
        -- eexists master, _. split; [reflexivity|]. split; [reflexivity|].
           split; reflexivity.
        -- exact Hgroup.
        -- rewrite Hgroup. by rewrite lookup_insert_eq.
      * simpl. by apply rows_keyed_keystores, rows_keyed_delete.
    + apply remove_null_inv in H as ->. by repeat split.
Qed.

Lemma populated_store_persisted : persisted populated_store.
Proof.
  split; [vm_compute; reflexivity|]. split; [|split].
  - eexists _, _. split; [vm_compute; reflexivity|].
    split; [vm_compute; reflexivity|]. split; vm_compute; reflexivity.
  - vm_compute. reflexivity.
  - vm_compute. reflexivity.
Qed.

Lemma writes_keep_in_step_witness :
  persisted (snd (DataStore.update env1 (Some new_password_item)
                    populated_store)).
Proof.
  apply (proj1 (proj2 (writes_keep_in_step env1 populated_store
                         populated_store_persisted populated_store_rows_keyed))
           (Some new_password_item) updated_password_item).
  vm_compute. reflexivity.
Defined.

(** X21: a second data store made on the bucket of a store that is in
    step, with whatever sink, then prepared and unlocked with the
    password of its master key, holds the same keyring and reads the same
    items: [get] and [list] give on it what they give on the first
    store. *)
Theorem second_store_reads_same (env env' : Env) (pwd : option JsString.t)
    (recordMetric : option DataStore.Sink) (ds : DataStore.t) :
  persisted ds ->
  ItemKeyStore.masterKey (DataStore.keystore ds) = Some (passwordToKey pwd) ->
  let second :=
    snd (DataStore.unlock pwd
           (snd (DataStore.prepare env
                   (DataStore.new env' None recordMetric
                      (DataStore.database ds))))) in
  DataStore.keystore second = DataStore.keystore ds
  /\ DataStore.database second = DataStore.database ds
  /\ DataStore.locked second = false
  /\ (forall key,
        fst (DataStore.get key second) = fst (DataStore.get key ds))
  /\ fst (DataStore.list second) = fst (DataStore.list ds).
Proof.
  intros (Hopen & Hsaved & Hgroup & Hstored) Hmaster second.
  assert (DataStore.keystore second = DataStore.keystore ds
          /\ DataStore.database second = DataStore.database ds
          /\ DataStore.ldb second = DataStore.ldb ds) as (Hks & Hdb & Hldb).
  { subst second.
    unfold DataStore.prepare, DataStore.new, DataStore.unlock,
      DataStore.onKeystore, DataStore.locked. simpl.
    rewrite Hstored. simpl.
    rewrite (load_revived env _ _ Hsaved Hmaster). simpl.
    by rewrite Hopen. }
  split; [exact Hks|]. split; [exact Hdb|]. split.
  - unfold DataStore.locked. rewrite Hks, Hmaster.
    by rewrite bool_decide_eq_true_2 by (by eexists).
  - by apply reads_same.
Qed.

Lemma second_store_reads_same_witness :
  fst (DataStore.list
         (snd (DataStore.unlock (Some M1)
                 (snd (DataStore.prepare env1 second_store)))))
  = fst (DataStore.list populated_store).
Proof.
  apply (second_store_reads_same env1 env1 (Some M1) None populated_store
           populated_store_persisted).
  vm_compute. reflexivity.
Defined.

(** ** The generated keystore *)

Section Generating.

Import GenerateEncryptedKeystore.

Lemma setProperty_new (k : string) (v : ItemKeyStore.ItemKey)
    (object : list (string * ItemKeyStore.ItemKey)) :
  k ∉ object.*1 -> setProperty k v object = object ++ [(k, v)].
Proof. intros H. unfold setProperty. by rewrite bool_decide_eq_false_2. Qed.

Lemma itemKeys_from (draw : nat -> string * N) (rounds : list nat)
    (object : list (string * ItemKeyStore.ItemKey)) :
  NoDup (object.*1 ++ ((fun idx => (draw idx).1) <$> rounds)) ->
  foldl (fun object idx =>
           let k := createItemKey (draw idx) in
           setProperty (ItemKeyStore.kid k) k object) object rounds
  = object ++ ((fun idx => ((draw idx).1, createItemKey (draw idx))) <$> rounds).
Proof.
  revert object. induction rounds as [|idx rounds IH]; intros object Hnodup.
  - simpl. by rewrite app_nil_r.
  - simpl in *. apply NoDup_app in Hnodup as (Hobj & Hdisj & Hrounds).
    apply NoDup_cons in Hrounds as [Hidx Hrounds].
    rewrite setProperty_new.
    + rewrite IH.
      * by rewrite <- app_assoc.
      * rewrite fmap_app. simpl. rewrite <- app_assoc. simpl.
        apply NoDup_app. split; [done|]. split.
        -- intros x Hx. apply Hdisj in Hx. done.
        -- by apply NoDup_cons.
    + intros Hin. apply Hdisj in Hin. apply Hin. left.
Qed.

Lemma itemKeys_distinct (count : Z) (draw : nat -> string * N) :
  NoDup ((fun idx => (draw idx).1) <$> seq 0 (Z.to_nat count)) ->
  itemKeys count draw
  = (fun idx => ((draw idx).1, createItemKey (draw idx)))
      <$> seq 0 (Z.to_nat count).
Proof.
  intros H. unfold itemKeys. by rewrite itemKeys_from.
Qed.

End Generating.

(** X22: when the ids drawn in the [count] rounds are distinct, the
    keystore the script writes loads into a keyring under the master key
    it was sealed with (and under no other), the loaded keyring holds
    [count] keys, the key of each round under the id drawn in it, and
    the logged line names the count and the ids in the order drawn; a
    count of zero or less still writes a keystore, with no key. *)
Theorem generated_keystore_loads (env : Env) (count : Z) (master : JWK.t)
    (draw : nat -> string * N) (p2s : string) (nonce : N) :
  let out := GenerateEncryptedKeystore.main count master draw p2s nonce in
  let ids := (fun idx => (draw idx).1) <$> seq 0 (Z.to_nat count) in
  let revived :=
    ItemKeyStore.new env
      (ItemKeyStore.mkConfig None None None
         (Some (GenerateEncryptedKeystore.written out)) None) in
  NoDup ids ->
  (exists ks,
     ItemKeyStore.load (Some master) revived = (Return tt, ks)
     /\ ItemKeyStore.size ks = Z.to_nat count
     /\ (forall idx, idx < Z.to_nat count ->
         ItemKeyStore.get ks (draw idx).1
         = Some (GenerateEncryptedKeystore.createItemKey (draw idx)))
     /\ ((count <= 0)%Z -> ItemKeyStore.keys ks = ∅))
  /\ (forall other, other ≠ master ->
      fst (ItemKeyStore.load (Some other) revived)
      = Throw (DataStoreError "invalid master key" INVALID_MASTER_KEY))
  /\ GenerateEncryptedKeystore.logged out
     = "generated encrypted keysstore of " +:+ pretty count
       +:+ " keys: [" +:+ String.concat ", " ids +:+ "]".
Proof.
  intros out ids revived Hnodup. subst out ids revived.
  unfold GenerateEncryptedKeystore.main. simpl.
  rewrite itemKeys_distinct by done.
  set (pairs := (fun idx => ((draw idx).1,
                             GenerateEncryptedKeystore.createItemKey (draw idx)))
                  <$> seq 0 (Z.to_nat count)).
  assert (pairs.*1 = (fun idx => (draw idx).1) <$> seq 0 (Z.to_nat count))
    as Hfst.
  { subst pairs. rewrite <- list_fmap_compose. done. }
  split; [|split].
  - unfold ItemKeyStore.load, ItemKeyStore.unwrap, ItemKeyStore.wrap. simpl.
    rewrite bool_decide_eq_true_2 by done.
    eexists. split; [reflexivity|]. unfold ItemKeyStore.size, ItemKeyStore.get.
    simpl. split; [|split].
    + rewrite map_size_list_to_map by (by rewrite Hfst).
      subst pairs. by rewrite length_fmap, length_seq.
    + intros idx Hidx. apply elem_of_list_to_map; [by rewrite Hfst|].
      subst pairs.
      apply (list_elem_of_fmap_2' _ _ idx); [|done].
      apply elem_of_seq. lia.
    + intros Hcount. subst pairs.
      replace (Z.to_nat count) with 0%nat by lia. done.
  - intros other Hne. unfold ItemKeyStore.load, ItemKeyStore.unwrap,
      ItemKeyStore.wrap. simpl.
    by rewrite bool_decide_eq_false_2.
  - by rewrite Hfst.
Qed.

Lemma generated_keystore_loads_witness :
  exists ks,
    ItemKeyStore.load (Some (passwordToKey (Some M1)))
      (ItemKeyStore.new env0
         (ItemKeyStore.mkConfig None None None
            (Some (GenerateEncryptedKeystore.written
                     (GenerateEncryptedKeystore.main 4
                        (passwordToKey (Some M1)) draw4 "c2FsdA" 7)))
            None))
    = (Return tt, ks)
    /\ ItemKeyStore.size ks = 4.
Proof.
  destruct (proj1 (generated_keystore_loads env0 4 (passwordToKey (Some M1))
                     draw4 "c2FsdA" 7
                     ltac:(vm_compute; repeat constructor;
                           rewrite ?elem_of_cons, elem_of_nil;
                           intuition discriminate)))
    as (ks & Hload & Hsize & _).
  exists ks. split; [exact Hload | exact Hsize].
Defined.
